(** * haex-sync-server: the sync routes over an explicit store

    A shallow embedding of [src/routes/sync.ts], [src/middleware/auth.ts]
    and the two tables of [src/db/schema.ts].

    The PostgreSQL database is an explicit value [Db] that every query
    receives and returns.  A query is an [Async] computation: it resolves
    with a value or rejects with an [Exception], as the awaited drizzle
    promises of the source do.  The [try { ... } catch] of each route
    handler is [try_catch].

    What is idealised, once and for all:
    - [gen_random_uuid()] (column default of [id]) draws from a supply
      carried by the store, so generated ids are fresh by construction;
    - [now()] (column default of [createdAt]) is the time [now] handed to
      each request;
    - text columns and JSON strings are [string]; JSON integers and the
      [integer] column are [Z], with the column's 32-bit range checked
      on insert;
    - [ORDER BY] is a stable sort (PostgreSQL leaves the order of ties
      open);
    - the store never fails for reasons outside a statement's own
      constraints (no lost connection, no foreign-key failure: the user
      of a verified token exists). *)

From Stdlib Require Import ZArith List String Ascii Bool Lia.
From Stdlib Require Import Sorting.Sorted Sorting.Permutation.
Import ListNotations.

Local Open Scope string_scope.
Local Open Scope list_scope.
Local Open Scope Z_scope.

(** ** Schema ([src/db/schema.ts]) *)

Definition RowId := N.
Definition Timestamp := Z.

Module VaultKey.
Record t : Type := mk
  { id : RowId;
    userId : string;
    vaultId : string;
    encryptedVaultKey : string;
    salt : string;
    nonce : string;
    createdAt : Timestamp;
    updatedAt : Timestamp }.
End VaultKey.

Module NewVaultKey.
Record t : Type := mk
  { userId : string;
    vaultId : string;
    encryptedVaultKey : string;
    salt : string;
    nonce : string }.
End NewVaultKey.

Module SyncLog.
Record t : Type := mk
  { id : RowId;
    userId : string;
    vaultId : string;
    encryptedData : string;
    nonce : string;
    haexTimestamp : string;
    sequence : Z;
    createdAt : Timestamp }.
End SyncLog.

Module NewSyncLog.
Record t : Type := mk
  { userId : string;
    vaultId : string;
    encryptedData : string;
    nonce : string;
    haexTimestamp : string;
    sequence : Z }.
End NewSyncLog.

(** The database: the rows of [vault_keys] and [sync_logs] in insertion
    order, and the supply of generated ids. *)
Record Db : Type := mkDb
  { vaultKeys : list VaultKey.t;
    syncLogs : list SyncLog.t;
    uuidSupply : N }.

(** ** Awaited computations *)

Inductive Exception : Type :=
| EmptyValues             (* drizzle: values() must be called with at least one value *)
| UniqueViolation (index : string)   (* PostgreSQL 23505 *)
| NumericValueOutOfRange  (* PostgreSQL 22003 *)
| InvalidRowCount         (* PostgreSQL 2201W: LIMIT must not be negative *)
| TypeError.              (* property read on undefined *)

Inductive Outcome (A : Type) : Type :=
| Resolved (a : A)
| Rejected (e : Exception).
Arguments Resolved {A} a.
Arguments Rejected {A} e.

Definition Async (A : Type) : Type := Db -> Outcome A * Db.

Definition ret {A} (a : A) : Async A := fun db => (Resolved a, db).

Definition throw {A} (e : Exception) : Async A := fun db => (Rejected e, db).

Definition bind {A B} (m : Async A) (k : A -> Async B) : Async B :=
  fun db =>
    match m db with
    | (Resolved a, db') => k a db'
    | (Rejected e, db') => (Rejected e, db')
    end.

Notation "x <- m ;; k" := (bind m (fun x => k))
  (at level 61, m at next level, right associativity).

(** [try { body } catch (error) { handler }] around a handler body. *)
Definition try_catch {A} (body : Async A) (handler : Exception -> A) : Db -> A * Db :=
  fun db =>
    match body db with
    | (Resolved a, db') => (a, db')
    | (Rejected e, db') => (handler e, db')
    end.

(** ** Queries *)

(** [ORDER BY]: a stable insertion sort for the order [leb]. *)
Fixpoint insert_sorted {A} (leb : A -> A -> bool) (x : A) (l : list A) : list A :=
  match l with
  | [] => [x]
  | y :: l' => if leb x y then x :: l else y :: insert_sorted leb x l'
  end.

Definition orderBy {A} (leb : A -> A -> bool) (l : list A) : list A :=
  fold_right (insert_sorted leb) [] l.

(** [orderBy: syncLogs.sequence] and [orderBy: desc(syncLogs.sequence)]. *)
Definition asc_sequence (a b : SyncLog.t) : bool :=
  SyncLog.sequence a <=? SyncLog.sequence b.

Definition desc_sequence (a b : SyncLog.t) : bool :=
  SyncLog.sequence b <=? SyncLog.sequence a.

(** [db.query.vaultKeys.findFirst({ where })]. *)
Definition vaultKeys_findFirst (where_ : VaultKey.t -> bool) : Async (option VaultKey.t) :=
  fun db => (Resolved (find where_ (vaultKeys db)), db).

(** [db.query.syncLogs.findFirst({ where, orderBy })]. *)
Definition syncLogs_findFirst (where_ : SyncLog.t -> bool)
    (order : SyncLog.t -> SyncLog.t -> bool) : Async (option SyncLog.t) :=
  fun db => (Resolved (hd_error (orderBy order (filter where_ (syncLogs db)))), db).

(** [db.query.syncLogs.findMany({ where, orderBy, limit })]. *)
Definition syncLogs_findMany (where_ : SyncLog.t -> bool)
    (order : SyncLog.t -> SyncLog.t -> bool) (limit : Z) : Async (list SyncLog.t) :=
  fun db =>
    if limit <? 0 then (Rejected InvalidRowCount, db)
    else (Resolved (firstn (Z.to_nat limit)
                      (orderBy order (filter where_ (syncLogs db)))), db).

(** ** Inserts *)

(** The [integer] column type. *)
Definition int4 (z : Z) : bool := (-2147483648 <=? z) && (z <=? 2147483647).

(** [uniqueIndex("vault_keys_user_vault_idx").on(userId, vaultId)]. *)
Definition vault_keys_user_vault_idx (rows : list VaultKey.t) (v : NewVaultKey.t) : bool :=
  existsb (fun k => String.eqb (VaultKey.userId k) (NewVaultKey.userId v)
                    && String.eqb (VaultKey.vaultId k) (NewVaultKey.vaultId v)) rows.

(** [uniqueIndex("sync_logs_user_timestamp_idx").on(userId, haexTimestamp)]. *)
Definition sync_logs_user_timestamp_idx (rows : list SyncLog.t) (v : NewSyncLog.t) : bool :=
  existsb (fun l => String.eqb (SyncLog.userId l) (NewSyncLog.userId v)
                    && String.eqb (SyncLog.haexTimestamp l) (NewSyncLog.haexTimestamp v)) rows.

(** [db.insert(vaultKeys).values(v).returning()]: one row, both timestamps
    defaulting to [now]. *)
Definition vaultKeys_insert (v : NewVaultKey.t) (now : Timestamp) : Async (list VaultKey.t) :=
  fun db =>
    if vault_keys_user_vault_idx (vaultKeys db) v
    then (Rejected (UniqueViolation "vault_keys_user_vault_idx"), db)
    else
      let row := VaultKey.mk (uuidSupply db) (NewVaultKey.userId v) (NewVaultKey.vaultId v)
                   (NewVaultKey.encryptedVaultKey v) (NewVaultKey.salt v)
                   (NewVaultKey.nonce v) now now in
      (Resolved [row],
       mkDb (vaultKeys db ++ [row]) (syncLogs db) (N.succ (uuidSupply db))).

(** The rows of one multi-row [INSERT], one after the other: each is checked
    against the table as it stands, rows of the same statement included.
    The result is the inserted rows, the table and the id supply. *)
Fixpoint syncLogs_insert_rows (now : Timestamp) (values : list NewSyncLog.t)
    (table : list SyncLog.t) (supply : N)
    : Exception + (list SyncLog.t * list SyncLog.t * N) :=
  match values with
  | [] => inr ([], table, supply)
  | v :: rest =>
      if negb (int4 (NewSyncLog.sequence v)) then inl NumericValueOutOfRange
      else if sync_logs_user_timestamp_idx table v
      then inl (UniqueViolation "sync_logs_user_timestamp_idx")
      else
        let row := SyncLog.mk supply (NewSyncLog.userId v) (NewSyncLog.vaultId v)
                     (NewSyncLog.encryptedData v) (NewSyncLog.nonce v)
                     (NewSyncLog.haexTimestamp v) (NewSyncLog.sequence v) now in
        match syncLogs_insert_rows now rest (table ++ [row]) (N.succ supply) with
        | inl e => inl e
        | inr (inserted, table', supply') => inr (row :: inserted, table', supply')
        end
  end.

(** [db.insert(syncLogs).values(values).returning(...)]: drizzle refuses an
    empty array of values; the statement is atomic, a failing row leaves
    the table as it was. *)
Definition syncLogs_insert (values : list NewSyncLog.t) (now : Timestamp)
    : Async (list SyncLog.t) :=
  fun db =>
    match values with
    | [] => (Rejected EmptyValues, db)
    | _ :: _ =>
        match syncLogs_insert_rows now values (syncLogs db) (uuidSupply db) with
        | inl e => (Rejected e, db)
        | inr (inserted, table', supply') =>
            (Resolved inserted, mkDb (vaultKeys db) table' supply')
        end
    end.

(** ** Responses *)

Module PushedLog.
(** The [returning({ id, sequence, haexTimestamp, createdAt })] projection. *)
Record t : Type := mk
  { id : RowId;
    sequence : Z;
    haexTimestamp : string;
    createdAt : Timestamp }.
End PushedLog.

Module PulledLog.
Record t : Type := mk
  { id : RowId;
    encryptedData : string;
    nonce : string;
    haexTimestamp : string;
    sequence : Z;
    createdAt : Timestamp }.
End PulledLog.

Inductive Json : Type :=
| ErrorJson (error : string)
| ZodErrorJson
| VaultKeyStoredJson (message : string) (id : RowId) (vaultId : string)
    (createdAt : Timestamp)
| VaultKeyJson (vaultId encryptedVaultKey salt nonce : string) (createdAt : Timestamp)
| LogsPushedJson (message : string) (count : nat) (logs : list PushedLog.t)
| LogsPulledJson (logs : list PulledLog.t) (hasMore : bool).

Record Response : Type := json
  { body : Json;
    status : nat }.

(** ** Request bodies and their schemas *)

Module VaultKeyBody.
Record t : Type := mk
  { vaultId : string;
    encryptedVaultKey : string;
    salt : string;
    nonce : string }.
End VaultKeyBody.

Module PushLog.
Record t : Type := mk
  { encryptedData : string;
    nonce : string;
    haexTimestamp : string }.
End PushLog.

Module PushBody.
Record t : Type := mk
  { vaultId : string;
    logs : list PushLog.t }.
End PushBody.

Module PullInput.
Record t : Type := mk
  { vaultId : string;
    afterSequence : option Z;
    limit : option Z }.
End PullInput.

Module PullBody.
Record t : Type := mk
  { vaultId : string;
    afterSequence : option Z;
    limit : Z }.
End PullBody.

Record UserContext : Type := mkUserContext
  { userId : string;
    email : option string;
    role : option string }.

(** ** Route handlers ([src/routes/sync.ts]), past authentication and
    validation *)

Definition internal_server_error (_ : Exception) : Response :=
  json (ErrorJson "Internal server error") 500.

(** [and(eq(vaultKeys.userId, user.userId), eq(vaultKeys.vaultId, vaultId))]. *)
Definition vault_key_where (user : UserContext) (vaultId : string) (k : VaultKey.t) : bool :=
  String.eqb (VaultKey.userId k) (userId user) && String.eqb (VaultKey.vaultId k) vaultId.

(** POST /sync/vault-key. *)
Definition post_vault_key (user : UserContext) (body : VaultKeyBody.t) (now : Timestamp)
    : Db -> Response * Db :=
  try_catch
    (existing <- vaultKeys_findFirst (vault_key_where user (VaultKeyBody.vaultId body)) ;;
     match existing with
     | Some _ => ret (json (ErrorJson "Vault key already exists for this vault") 409)
     | None =>
         inserted <- vaultKeys_insert
                       (NewVaultKey.mk (userId user) (VaultKeyBody.vaultId body)
                          (VaultKeyBody.encryptedVaultKey body) (VaultKeyBody.salt body)
                          (VaultKeyBody.nonce body)) now ;;
         match inserted with
         | newVaultKey :: _ =>
             ret (json (VaultKeyStoredJson "Vault key stored successfully"
                          (VaultKey.id newVaultKey) (VaultKey.vaultId newVaultKey)
                          (VaultKey.createdAt newVaultKey)) 201)
         | [] => throw TypeError
         end
     end)
    internal_server_error.

(** GET /sync/vault-key/:vaultId. *)
Definition get_vault_key (user : UserContext) (vaultId : string) : Db -> Response * Db :=
  try_catch
    (vaultKey <- vaultKeys_findFirst (vault_key_where user vaultId) ;;
     match vaultKey with
     | None => ret (json (ErrorJson "Vault key not found") 404)
     | Some vaultKey =>
         ret (json (VaultKeyJson (VaultKey.vaultId vaultKey)
                      (VaultKey.encryptedVaultKey vaultKey) (VaultKey.salt vaultKey)
                      (VaultKey.nonce vaultKey) (VaultKey.createdAt vaultKey)) 200)
     end)
    internal_server_error.

(** [maxSeqResult?.sequence || 0]: an absent row and a zero both give 0. *)
Definition sequence_or_zero (maxSeqResult : option SyncLog.t) : Z :=
  match maxSeqResult with
  | Some row => if SyncLog.sequence row =? 0 then 0 else SyncLog.sequence row
  | None => 0
  end.

(** [logs.map((log) => ({ ..., sequence: ++currentSequence }))]: the counter
    is incremented before each entry takes its value. *)
Fixpoint assign_sequences (user : UserContext) (vaultId : string) (currentSequence : Z)
    (logs : list PushLog.t) : list NewSyncLog.t :=
  match logs with
  | [] => []
  | log :: rest =>
      let currentSequence := currentSequence + 1 in
      NewSyncLog.mk (userId user) vaultId (PushLog.encryptedData log) (PushLog.nonce log)
        (PushLog.haexTimestamp log) currentSequence
      :: assign_sequences user vaultId currentSequence rest
  end.

Definition returning (row : SyncLog.t) : PushedLog.t :=
  PushedLog.mk (SyncLog.id row) (SyncLog.sequence row) (SyncLog.haexTimestamp row)
    (SyncLog.createdAt row).

(** [where: eq(syncLogs.userId, user.userId)]. *)
Definition user_where (user : UserContext) (l : SyncLog.t) : bool :=
  String.eqb (SyncLog.userId l) (userId user).

(** POST /sync/push. *)
Definition post_push (user : UserContext) (body : PushBody.t) (now : Timestamp)
    : Db -> Response * Db :=
  try_catch
    (maxSeqResult <- syncLogs_findFirst (user_where user) desc_sequence ;;
     let currentSequence := sequence_or_zero maxSeqResult in
     insertedLogs <- syncLogs_insert
                       (assign_sequences user (PushBody.vaultId body) currentSequence
                          (PushBody.logs body)) now ;;
     ret (json (LogsPushedJson "Logs pushed successfully"
                  (List.length insertedLogs) (map returning insertedLogs)) 200))
    internal_server_error.

(** [and(...whereConditions)]. *)
Definition and_ (conditions : list (SyncLog.t -> bool)) (l : SyncLog.t) : bool :=
  forallb (fun condition => condition l) conditions.

Definition whereConditions (user : UserContext) (body : PullBody.t)
    : list (SyncLog.t -> bool) :=
  [ (fun l => String.eqb (SyncLog.userId l) (userId user));
    (fun l => String.eqb (SyncLog.vaultId l) (PullBody.vaultId body)) ]
  ++ match PullBody.afterSequence body with
     | Some afterSequence => [ fun l => afterSequence <? SyncLog.sequence l ]
     | None => []
     end.

(** [logs.slice(0, end)]: a negative [end] counts from the end of the array. *)
Definition slice0 {A} (end_ : Z) (l : list A) : list A :=
  let len := Z.of_nat (List.length l) in
  firstn (Z.to_nat (if end_ <? 0 then Z.max (len + end_) 0 else Z.min end_ len)) l.

Definition pulled (log : SyncLog.t) : PulledLog.t :=
  PulledLog.mk (SyncLog.id log) (SyncLog.encryptedData log) (SyncLog.nonce log)
    (SyncLog.haexTimestamp log) (SyncLog.sequence log) (SyncLog.createdAt log).

(** POST /sync/pull. *)
Definition post_pull (user : UserContext) (body : PullBody.t) : Db -> Response * Db :=
  try_catch
    (logs <- syncLogs_findMany (and_ (whereConditions user body)) asc_sequence
               (PullBody.limit body + 1) ;;
     let hasMore := PullBody.limit body <? Z.of_nat (List.length logs) in
     let returnLogs := slice0 (PullBody.limit body) logs in
     ret (json (LogsPulledJson (map pulled returnLogs) hasMore) 200))
    internal_server_error.

(** ** Authentication ([src/middleware/auth.ts]) and routing *)

Record SupabaseUser : Type := mkSupabaseUser
  { user_id : string;
    user_email : option string;
    user_role : option string }.

(** What awaiting [supabase.auth.getUser(token)] gives: the pair
    [{ data: { user }, error }], or a rejection. *)
Inductive GetUserResult : Type :=
| GetUserResolved (user : option SupabaseUser) (error : option string)
| GetUserRejected.

Inductive Route : Type :=
| POST_vault_key (body : VaultKeyBody.t)
| GET_vault_key (vaultId : string)
| POST_push (body : PushBody.t)
| POST_pull (body : PullInput.t).

Record Request : Type := mkRequest
  { Authorization : option string;
    route : Route }.

(** [authHeader.substring(7)]. *)
Definition bearer_token (authHeader : string) : string :=
  String.substring 7 (String.length authHeader - 7) authHeader.

Section Server.

(** The identity provider's verification and zod's [z.string().uuid()]
    check are libraries' own: the routes are defined for any of them. *)
Variable getUser : string -> GetUserResult.
Variable uuid : string -> bool.

Definition authMiddleware (authHeader : option string) : Response + UserContext :=
  match authHeader with
  | None => inl (json (ErrorJson "Unauthorized - Missing or invalid token") 401)
  | Some authHeader =>
      if negb (String.prefix "Bearer " authHeader)
      then inl (json (ErrorJson "Unauthorized - Missing or invalid token") 401)
      else
        let token := bearer_token authHeader in
        match getUser token with
        | GetUserResolved (Some user) None =>
            inr (mkUserContext (user_id user) (user_email user) (user_role user))
        | GetUserResolved _ _ => inl (json (ErrorJson "Unauthorized - Invalid token") 401)
        | GetUserRejected => inl (json (ErrorJson "Unauthorized - Invalid token") 401)
        end
  end.

Definition vaultKeySchema (data : VaultKeyBody.t) : option VaultKeyBody.t :=
  if uuid (VaultKeyBody.vaultId data) then Some data else None.

Definition pushLogsSchema (data : PushBody.t) : option PushBody.t :=
  if uuid (PushBody.vaultId data) then Some data else None.

Definition pullLogsSchema (data : PullInput.t) : option PullBody.t :=
  let limit := match PullInput.limit data with Some limit => limit | None => 100 end in
  if uuid (PullInput.vaultId data) && (1 <=? limit) && (limit <=? 1000)
  then Some (PullBody.mk (PullInput.vaultId data) (PullInput.afterSequence data) limit)
  else None.

(** [zValidator('json', schema)]: a body the schema refuses is answered
    with status 400 before the handler runs. *)
Definition zValidator {A B} (schema : A -> option B) (data : A)
    (handler : B -> Db -> Response * Db) : Db -> Response * Db :=
  fun db =>
    match schema data with
    | Some valid => handler valid db
    | None => (json ZodErrorJson 400, db)
    end.

(** The [sync] application: [sync.use('/*', authMiddleware)], then the
    route. *)
Definition sync (now : Timestamp) (req : Request) : Db -> Response * Db :=
  fun db =>
    match authMiddleware (Authorization req) with
    | inl unauthorized => (unauthorized, db)
    | inr user =>
        match route req with
        | POST_vault_key data =>
            zValidator vaultKeySchema data (fun body => post_vault_key user body now) db
        | GET_vault_key vaultId => get_vault_key user vaultId db
        | POST_push data =>
            zValidator pushLogsSchema data (fun body => post_push user body now) db
        | POST_pull data =>
            zValidator pullLogsSchema data (fun body => post_pull user body) db
        end
    end.

End Server.

(** The shape zod's uuid check accepts in every version: 8-4-4-4-12
    hexadecimal digits.  Used where a concrete check is needed. *)
Definition hex_digit (c : Ascii.ascii) : bool :=
  let n := Ascii.nat_of_ascii c in
  ((48 <=? n) && (n <=? 57) || (65 <=? n) && (n <=? 70) || (97 <=? n) && (n <=? 102))%nat.

(** [n] hexadecimal digits at the head of [s]; what follows them. *)
Fixpoint hex_run (n : nat) (s : string) : option string :=
  match n with
  | O => Some s
  | S n' =>
      match s with
      | String c s' => if hex_digit c then hex_run n' s' else None
      | EmptyString => None
      end
  end.

Definition dash (s : string) : option string :=
  match s with
  | String c s' => if Ascii.eqb c "-"%char then Some s' else None
  | EmptyString => None
  end.

Definition then_ (s : option string) (f : string -> option string) : option string :=
  match s with
  | Some s' => f s'
  | None => None
  end.

Definition uuid_shape (s : string) : bool :=
  match then_ (then_ (then_ (then_ (then_ (then_ (then_ (then_ (hex_run 8 s)
          dash) (hex_run 4)) dash) (hex_run 4)) dash) (hex_run 4)) dash) (hex_run 12) with
  | Some EmptyString => true
  | _ => false
  end.

(** ** Vocabulary of the properties *)

(** [m] is the user's current maximum sequence over all vaults: an upper
    bound of the user's rows that one of them attains, and 0 when the user
    has no row. *)
Definition current_max (db : Db) (user : string) (m : Z) : Prop :=
  (forall r, In r (syncLogs db) -> SyncLog.userId r = user -> SyncLog.sequence r <= m)
  /\ ((exists r, In r (syncLogs db) /\ SyncLog.userId r = user /\ SyncLog.sequence r = m)
      \/ ((forall r, In r (syncLogs db) -> SyncLog.userId r <> user) /\ m = 0)).

(** The same maximum, computed by one pass over the table. *)
Definition user_max_sequence (db : Db) (user : string) : Z :=
  match filter (fun r => String.eqb (SyncLog.userId r) user) (syncLogs db) with
  | [] => 0
  | r :: rows => fold_left Z.max (map SyncLog.sequence rows) (SyncLog.sequence r)
  end.

(** [n] consecutive integers from [start]. *)
Fixpoint consecutive (start : Z) (n : nat) : list Z :=
  match n with
  | O => []
  | S n' => start :: consecutive (start + 1) n'
  end.


(** The row an insert makes of a value: the value's columns, a generated
    id and the time of the statement. *)
Definition row_of (now : Timestamp) (v : NewSyncLog.t) (row : SyncLog.t) : Prop :=
  SyncLog.userId row = NewSyncLog.userId v
  /\ SyncLog.vaultId row = NewSyncLog.vaultId v
  /\ SyncLog.encryptedData row = NewSyncLog.encryptedData v
  /\ SyncLog.nonce row = NewSyncLog.nonce v
  /\ SyncLog.haexTimestamp row = NewSyncLog.haexTimestamp v
  /\ SyncLog.sequence row = NewSyncLog.sequence v
  /\ SyncLog.createdAt row = now.

(** The ids an insert of [n] rows draws from the supply. *)
Fixpoint generated_ids (supply : N) (n : nat) : list RowId :=
  match n with
  | O => []
  | S n' => supply :: generated_ids (N.succ supply) n'
  end.


(** A row of the caller's vault past [afterSequence]. *)
Definition qualifying (user : UserContext) (body : PullBody.t) (l : SyncLog.t) : bool :=
  String.eqb (SyncLog.userId l) (userId user)
  && String.eqb (SyncLog.vaultId l) (PullBody.vaultId body)
  && match PullBody.afterSequence body with
     | Some afterSequence => afterSequence <? SyncLog.sequence l
     | None => true
     end.

(** Calls of the four handlers, to speak of what happens after a call. *)
Inductive Call : Type :=
| CreateVaultKey (user : UserContext) (body : VaultKeyBody.t) (now : Timestamp)
| FindVaultKey (user : UserContext) (vaultId : string)
| Push (user : UserContext) (body : PushBody.t) (now : Timestamp)
| Pull (user : UserContext) (body : PullBody.t).

Definition call (c : Call) : Db -> Response * Db :=
  match c with
  | CreateVaultKey user body now => post_vault_key user body now
  | FindVaultKey user vaultId => get_vault_key user vaultId
  | Push user body now => post_push user body now
  | Pull user body => post_pull user body
  end.


(** The store as one user sees it: that user's rows only. *)
Definition owned_by (user : string) (db : Db) : Db :=
  mkDb (filter (fun k => String.eqb (VaultKey.userId k) user) (vaultKeys db))
       (filter (fun l => String.eqb (SyncLog.userId l) user) (syncLogs db))
       (uuidSupply db).

(** Every vault key and log entry of a response is taken from a stored row
    of [user]. *)
Definition discloses_only (user : string) (db : Db) (res : Response) : Prop :=
  match body res with
  | VaultKeyStoredJson _ id vaultId createdAt =>
      exists k, In k (vaultKeys db) /\ VaultKey.userId k = user
                /\ VaultKey.id k = id /\ VaultKey.vaultId k = vaultId
                /\ VaultKey.createdAt k = createdAt
  | VaultKeyJson vaultId encryptedVaultKey salt nonce createdAt =>
      exists k, In k (vaultKeys db) /\ VaultKey.userId k = user
                /\ VaultKey.vaultId k = vaultId
                /\ VaultKey.encryptedVaultKey k = encryptedVaultKey
                /\ VaultKey.salt k = salt /\ VaultKey.nonce k = nonce
                /\ VaultKey.createdAt k = createdAt
  | LogsPushedJson _ _ logs =>
      forall e, In e logs ->
        exists l, In l (syncLogs db) /\ SyncLog.userId l = user /\ returning l = e
  | LogsPulledJson logs _ =>
      forall e, In e logs ->
        exists l, In l (syncLogs db) /\ SyncLog.userId l = user /\ pulled l = e
  | ErrorJson _ | ZodErrorJson => True
  end.

(** The two ways a request fails authentication. *)
Definition header_missing_or_malformed (authHeader : option string) : bool :=
  match authHeader with
  | None => true
  | Some authHeader => negb (String.prefix "Bearer " authHeader)
  end.

Definition verification_fails (getUser : string -> GetUserResult)
    (authHeader : option string) : bool :=
  match authHeader with
  | None => false
  | Some authHeader =>
      String.prefix "Bearer " authHeader
      && match getUser (bearer_token authHeader) with
         | GetUserResolved (Some _) None => false
         | _ => true
         end
  end.

(** ** Sample data *)

Definition alice : UserContext :=
  mkUserContext "0b9d3c1e-5a4f-4c7e-9a55-2f1c7d0e6a01" (Some "alice@example.com") None.

Definition bob : UserContext :=
  mkUserContext "7e2a9f64-1c3b-4d8a-b6f0-93d5e8a4c702" None None.

Definition vault1 : string := "123e4567-e89b-12d3-a456-426614174000".
Definition vault2 : string := "9f8e7d6c-5b4a-4321-8fed-cba987654321".

(** A store in which alice's maximum is 5, reached in another vault. *)
Definition sample_db : Db :=
  mkDb []
       [ SyncLog.mk 0%N (userId alice) vault2 "Z" "n0" "t0" 5 100;
         SyncLog.mk 1%N (userId bob) vault1 "Y" "n9" "t9" 41 101 ]
       2%N.

Definition two_logs : list PushLog.t :=
  [ PushLog.mk "A" "n1" "t1"; PushLog.mk "B" "n2" "t2" ].

(** A batch whose second entry repeats a timestamp alice has stored. *)
Definition resubmitted_logs : list PushLog.t :=
  [ PushLog.mk "A" "n1" "t1"; PushLog.mk "Z" "n0" "t0" ].

(** Alice's vault holds sequences 6, 7 and 8, stored out of order. *)
Definition paged_db : Db :=
  mkDb []
       [ SyncLog.mk 0%N (userId alice) vault1 "B" "n2" "t2" 7 100;
         SyncLog.mk 1%N (userId bob) vault1 "Y" "n9" "t9" 7 101;
         SyncLog.mk 2%N (userId alice) vault1 "A" "n1" "t1" 6 102;
         SyncLog.mk 3%N (userId alice) vault1 "C" "n3" "t3" 8 103 ]
       4%N.

(** A store without rows. *)
Definition empty_db : Db := mkDb [] [] 0%N.

(** An identity provider that knows two tokens. *)
Definition getUser_sample (token : string) : GetUserResult :=
  if String.eqb token "alice-token"
  then GetUserResolved (Some (mkSupabaseUser (userId alice) (email alice) (role alice))) None
  else if String.eqb token "bob-token"
  then GetUserResolved (Some (mkSupabaseUser (userId bob) (email bob) (role bob))) None
  else GetUserResolved None (Some "invalid JWT").

(** Bob holds a key for a vault whose id is not a UUID. *)
Definition keyed_db : Db :=
  mkDb [ VaultKey.mk 0%N (userId bob) "v1" "bob key" "bob salt" "bob nonce" 90 90 ]
       (syncLogs paged_db)
       5%N.

(** ** The store over a run of requests *)

(** The two unique indexes, as conditions on a store. *)
Definition vault_keys_unique (db : Db) : Prop :=
  NoDup (map (fun k => (VaultKey.userId k, VaultKey.vaultId k)) (vaultKeys db)).

Definition sync_logs_unique (db : Db) : Prop :=
  NoDup (map (fun l => (SyncLog.userId l, SyncLog.haexTimestamp l)) (syncLogs db)).

(** The sequence numbers of a user's rows, in the order they were stored. *)
Definition user_sequences (db : Db) (user : string) : list Z :=
  map SyncLog.sequence
    (filter (fun l => String.eqb (SyncLog.userId l) user) (syncLogs db)).

(** Every user's rows are numbered 1, 2, 3, ... in the order stored. *)
Definition gapless (db : Db) : Prop :=
  forall user,
    user_sequences db user = consecutive 1 (List.length (user_sequences db user)).

(** Requests served one after the other, each at its own time. *)
Definition serve (getUser : string -> GetUserResult) (uuid : string -> bool)
    (requests : list (Timestamp * Request)) (db : Db) : Db :=
  fold_left (fun db r => snd (sync getUser uuid (fst r) (snd r) db)) requests db.

(** The caller of a handler call. *)
Definition caller (c : Call) : UserContext :=
  match c with
  | CreateVaultKey user _ _ => user
  | FindVaultKey user _ => user
  | Push user _ _ => user
  | Pull user _ => user
  end.

(** The vault a handler call names. *)
Definition called_vault (c : Call) : string :=
  match c with
  | CreateVaultKey _ body _ => VaultKeyBody.vaultId body
  | FindVaultKey _ vaultId => vaultId
  | Push _ body _ => PushBody.vaultId body
  | Pull _ body => PullBody.vaultId body
  end.

(** ** The allowed origins ([index.ts]) *)

(** [s.split(',')], for any separator character: the pieces between the
    separators, one more than there are separators. *)
Fixpoint split (separator : ascii) (s : string) : list string :=
  match s with
  | EmptyString => [EmptyString]
  | String c s' =>
      if Ascii.eqb c separator then EmptyString :: split separator s'
      else match split separator s' with
           | piece :: pieces => String c piece :: pieces
           | [] => [String c EmptyString]
           end
  end.

(** The white space and line terminators that [trim] removes, among the
    characters below 256: tab, line feed, vertical tab, form feed, carriage
    return, space and no-break space. *)
Definition white_space (c : ascii) : bool :=
  let n := nat_of_ascii c in
  ((9 <=? n) && (n <=? 13) || (n =? 32) || (n =? 160))%nat.

Fixpoint trimStart (s : string) : string :=
  match s with
  | EmptyString => EmptyString
  | String c s' => if white_space c then trimStart s' else s
  end.

Fixpoint trimEnd (s : string) : string :=
  match s with
  | EmptyString => EmptyString
  | String c s' =>
      match trimEnd s' with
      | EmptyString => if white_space c then EmptyString else String c EmptyString
      | kept => String c kept
      end
  end.

(** [o.trim()]. *)
Definition trim (s : string) : string := trimEnd (trimStart s).

(** What the [cors] middleware is given: ['*'] or an array of origins. *)
Inductive Origins : Type :=
| AnyOrigin
| OriginList (origins : list string).

(** [process.env.CORS_ORIGIN || '*']: unset and empty both give ['*']. *)
Definition corsOrigin (CORS_ORIGIN : option string) : string :=
  match CORS_ORIGIN with
  | None => "*"
  | Some EmptyString => "*"
  | Some value => value
  end.

(** [corsOrigin === '*' ? '*' : corsOrigin.split(',').map(o => o.trim())]. *)
Definition allowedOrigins (CORS_ORIGIN : option string) : Origins :=
  let corsOrigin := corsOrigin CORS_ORIGIN in
  if String.eqb corsOrigin "*" then AnyOrigin
  else OriginList (map trim (split "," corsOrigin)).

(** Pieces written one after the other with a separator between them. *)
Fixpoint join (separator : ascii) (pieces : list string) : string :=
  match pieces with
  | [] => EmptyString
  | piece :: rest =>
      match rest with
      | [] => piece
      | _ :: _ => String.append piece (String separator (join separator rest))
      end
  end.

Fixpoint contains (c : ascii) (s : string) : bool :=
  match s with
  | EmptyString => false
  | String c' s' => Ascii.eqb c' c || contains c s'
  end.

Fixpoint all_white_space (s : string) : bool :=
  match s with
  | EmptyString => true
  | String c s' => white_space c && all_white_space s'
  end.

Definition starts_with_white_space (s : string) : bool :=
  match s with
  | EmptyString => false
  | String c _ => white_space c
  end.

Fixpoint ends_with_white_space (s : string) : bool :=
  match s with
  | EmptyString => false
  | String c EmptyString => white_space c
  | String _ s' => ends_with_white_space s'
  end.

(** An origin as one writes it: no comma in it, no white space at either
    end. *)
Definition bare (origin : string) : bool :=
  negb (contains "," origin)
  && negb (starts_with_white_space origin)
  && negb (ends_with_white_space origin).

(** An origin with white space before and after it. *)
Definition padded (p : string * string * string) : string :=
  let '(before, origin, after) := p in
  String.append before (String.append origin after).

Definition well_padded (p : string * string * string) : bool :=
  let '(before, origin, after) := p in
  all_white_space before && bare origin && all_white_space after.

(** * Properties *)

(** ** The query monad *)

Lemma try_catch_resolved {A} (m : Async A) (handler : Exception -> A) db a db' :
  m db = (Resolved a, db') -> try_catch m handler db = (a, db').
Proof. unfold try_catch; intros ->; reflexivity. Qed.

Lemma try_catch_rejected {A} (m : Async A) (handler : Exception -> A) db e db' :
  m db = (Rejected e, db') -> try_catch m handler db = (handler e, db').
Proof. unfold try_catch; intros ->; reflexivity. Qed.

(** ** ORDER BY *)

Section OrderBy.

Context {A : Type} (leb : A -> A -> bool).
Hypothesis leb_total : forall a b, leb a b = true \/ leb b a = true.
Hypothesis leb_trans : forall a b c, leb a b = true -> leb b c = true -> leb a c = true.

Lemma insert_sorted_perm x l : Permutation (insert_sorted leb x l) (x :: l).
Proof.
  induction l as [|y l IH]; simpl.
  - apply Permutation_refl.
  - destruct (leb x y).
    + apply Permutation_refl.
    + eapply perm_trans; [apply perm_skip, IH | apply perm_swap].
Qed.

Lemma orderBy_perm l : Permutation (orderBy leb l) l.
Proof.
  induction l as [|x l IH]; simpl.
  - apply perm_nil.
  - eapply perm_trans; [apply insert_sorted_perm | apply perm_skip, IH].
Qed.

Lemma orderBy_In x l : In x (orderBy leb l) <-> In x l.
Proof.
  split; apply Permutation_in;
    [apply orderBy_perm | apply Permutation_sym, orderBy_perm].
Qed.

Lemma orderBy_length l : List.length (orderBy leb l) = List.length l.
Proof. apply Permutation_length, orderBy_perm. Qed.

Lemma insert_sorted_sorted x l :
  StronglySorted (fun a b => leb a b = true) l ->
  StronglySorted (fun a b => leb a b = true) (insert_sorted leb x l).
Proof.
  induction 1 as [|y l Hs IH Hy]; simpl.
  - constructor; constructor.
  - destruct (leb x y) eqn:E.
    + constructor.
      * constructor; assumption.
      * constructor; [exact E|].
        eapply Forall_impl; [|exact Hy]. intros b Hb; simpl in Hb. eauto.
    + constructor; [exact IH|].
      apply Forall_forall. intros b Hb.
      apply (Permutation_in _ (insert_sorted_perm x l)) in Hb.
      destruct Hb as [<-|Hb].
      * destruct (leb_total x y) as [H|H]; congruence.
      * rewrite Forall_forall in Hy. auto.
Qed.

Lemma orderBy_sorted l : StronglySorted (fun a b => leb a b = true) (orderBy leb l).
Proof.
  induction l as [|x l IH]; simpl.
  - constructor.
  - apply insert_sorted_sorted, IH.
Qed.

(** The first row of an ordered selection is a row of the selection that
    precedes all of them. *)
Lemma orderBy_head r l :
  hd_error (orderBy leb l) = Some r ->
  In r l /\ forall r', In r' l -> r' = r \/ leb r r' = true.
Proof.
  intros H.
  pose proof (orderBy_sorted l) as Hs.
  destruct (orderBy leb l) as [|h t] eqn:E; [discriminate|].
  injection H as ->. split.
  - apply orderBy_In. rewrite E. left; reflexivity.
  - intros r' Hr'. apply orderBy_In in Hr'. rewrite E in Hr'.
    destruct Hr' as [->|Hr']; [left; reflexivity|right].
    inversion Hs as [|? ? _ Hall]; subst.
    rewrite Forall_forall in Hall. auto.
Qed.

Lemma orderBy_head_none l : hd_error (orderBy leb l) = None -> l = [].
Proof.
  intros H. destruct l as [|x l]; [reflexivity|].
  pose proof (orderBy_length (x :: l)) as Hlen.
  destruct (orderBy leb (x :: l)); [discriminate Hlen|discriminate H].
Qed.

End OrderBy.

Lemma asc_sequence_total a b : asc_sequence a b = true \/ asc_sequence b a = true.
Proof. unfold asc_sequence. rewrite !Z.leb_le. lia. Qed.

Lemma asc_sequence_trans a b c :
  asc_sequence a b = true -> asc_sequence b c = true -> asc_sequence a c = true.
Proof. unfold asc_sequence. rewrite !Z.leb_le. lia. Qed.

Lemma desc_sequence_total a b : desc_sequence a b = true \/ desc_sequence b a = true.
Proof. unfold desc_sequence. rewrite !Z.leb_le. lia. Qed.

Lemma desc_sequence_trans a b c :
  desc_sequence a b = true -> desc_sequence b c = true -> desc_sequence a c = true.
Proof. unfold desc_sequence. rewrite !Z.leb_le. lia. Qed.

(** ** The current maximum *)

Lemma current_max_unique db user m1 m2 :
  current_max db user m1 -> current_max db user m2 -> m1 = m2.
Proof.
  intros [U1 [(r1 & I1 & O1 & E1)|[N1 Z1]]] [U2 [(r2 & I2 & O2 & E2)|[N2 Z2]]].
  - specialize (U1 _ I2 O2). specialize (U2 _ I1 O1). lia.
  - exfalso. exact (N2 _ I1 O1).
  - exfalso. exact (N1 _ I2 O2).
  - lia.
Qed.

Lemma fold_left_max_spec l : forall a,
  a <= fold_left Z.max l a
  /\ (forall x, In x l -> x <= fold_left Z.max l a)
  /\ (fold_left Z.max l a = a \/ In (fold_left Z.max l a) l).
Proof.
  induction l as [|y l IH]; intros a; simpl.
  - repeat split; [lia | contradiction | left; reflexivity].
  - destruct (IH (Z.max a y)) as (H1 & H2 & H3). repeat split.
    + lia.
    + intros x [<-|Hx]; [lia | auto].
    + destruct H3 as [H3|H3]; [|right; right; exact H3].
      destruct (Z.max_spec a y) as [[_ E]|[_ E]].
      * right; left. rewrite H3. symmetry; exact E.
      * left. rewrite H3. exact E.
Qed.

Lemma user_max_sequence_current_max db user :
  current_max db user (user_max_sequence db user).
Proof.
  unfold current_max, user_max_sequence.
  set (p := fun r => String.eqb (SyncLog.userId r) user).
  assert (Hp : forall r, In r (filter p (syncLogs db)) <->
                         In r (syncLogs db) /\ SyncLog.userId r = user).
  { intros r. rewrite filter_In. unfold p. rewrite String.eqb_eq. tauto. }
  destruct (filter p (syncLogs db)) as [|r rows].
  - split.
    + intros r Hr Hu. destruct (proj2 (Hp r) (conj Hr Hu)).
    + right. split; [|reflexivity]. intros r Hr Hu. destruct (proj2 (Hp r) (conj Hr Hu)).
  - destruct (fold_left_max_spec (map SyncLog.sequence rows) (SyncLog.sequence r))
      as (H1 & H2 & H3).
    split.
    + intros r' Hr' Hu. destruct (proj2 (Hp r') (conj Hr' Hu)) as [<-|Hin]; [exact H1|].
      apply H2, in_map, Hin.
    + left. destruct H3 as [H3|H3].
      * exists r. destruct (proj1 (Hp r) (or_introl eq_refl)). auto.
      * apply in_map_iff in H3. destruct H3 as (r' & E & Hin).
        exists r'. destruct (proj1 (Hp r') (or_intror Hin)). auto.
Qed.

(** What [findFirst] ordered by [desc(sequence)] and [|| 0] compute is the
    current maximum. *)
Lemma sequence_or_zero_current_max db user :
  current_max db (userId user)
    (sequence_or_zero
       (hd_error (orderBy desc_sequence (filter (user_where user) (syncLogs db))))).
Proof.
  unfold current_max.
  assert (Hp : forall r, In r (filter (user_where user) (syncLogs db)) <->
                         In r (syncLogs db) /\ SyncLog.userId r = userId user).
  { intros r. rewrite filter_In. unfold user_where. rewrite String.eqb_eq. tauto. }
  destruct (hd_error (orderBy desc_sequence (filter (user_where user) (syncLogs db))))
    as [r|] eqn:E.
  - apply (orderBy_head desc_sequence desc_sequence_total desc_sequence_trans) in E.
    destruct E as [Hin Hmax]. apply Hp in Hin. destruct Hin as [Hin Hu].
    assert (Hs : sequence_or_zero (Some r) = SyncLog.sequence r).
    { simpl. destruct (Z.eqb_spec (SyncLog.sequence r) 0); congruence. }
    rewrite Hs. split.
    + intros r' Hr' Hu'. destruct (Hmax r' (proj2 (Hp r') (conj Hr' Hu'))) as [->|H].
      * lia.
      * unfold desc_sequence in H. apply Z.leb_le in H. exact H.
    + left. exists r. auto.
  - apply orderBy_head_none in E. simpl. split.
    + intros r Hr Hu. pose proof (proj2 (Hp r) (conj Hr Hu)) as H. rewrite E in H. destruct H.
    + right. split; [|reflexivity].
      intros r Hr Hu. pose proof (proj2 (Hp r) (conj Hr Hu)) as H. rewrite E in H. destruct H.
Qed.

Lemma sequence_or_zero_user_max db user :
  sequence_or_zero
    (hd_error (orderBy desc_sequence (filter (user_where user) (syncLogs db))))
  = user_max_sequence db (userId user).
Proof.
  eapply current_max_unique;
    [apply sequence_or_zero_current_max | apply user_max_sequence_current_max].
Qed.

(** ** Lists related elementwise *)

Lemma Forall2_map_eq {A B C} (R : A -> B -> Prop) (f : A -> C) (g : B -> C) :
  (forall a b, R a b -> g b = f a) ->
  forall la lb, Forall2 R la lb -> map g lb = map f la.
Proof.
  intros H la lb HF. induction HF as [|a b la lb Hab _ IH]; simpl; [reflexivity|].
  rewrite (H _ _ Hab), IH. reflexivity.
Qed.


(** ** Sequence assignment and the multi-row insert *)

Lemma assign_sequences_sequence user vaultId logs : forall currentSequence,
  map NewSyncLog.sequence (assign_sequences user vaultId currentSequence logs)
  = consecutive (currentSequence + 1) (List.length logs).
Proof.
  induction logs as [|log rest IH]; intros c; simpl; [reflexivity|].
  f_equal. apply IH.
Qed.

Lemma assign_sequences_timestamp user vaultId logs : forall currentSequence,
  map NewSyncLog.haexTimestamp (assign_sequences user vaultId currentSequence logs)
  = map PushLog.haexTimestamp logs.
Proof.
  induction logs as [|log rest IH]; intros c; simpl; [reflexivity|].
  f_equal. apply IH.
Qed.

Lemma assign_sequences_user user vaultId logs : forall currentSequence,
  Forall (fun v => NewSyncLog.userId v = userId user)
    (assign_sequences user vaultId currentSequence logs).
Proof.
  induction logs as [|log rest IH]; intros c; simpl; constructor; [reflexivity|apply IH].
Qed.


Lemma consecutive_bounds start n z :
  In z (consecutive start n) -> start <= z < start + Z.of_nat n.
Proof.
  revert start. induction n as [|n IH]; intros start; simpl; [contradiction|].
  intros [<-|H]; [lia|]. apply IH in H. lia.
Qed.

(** A statement that goes through appends one row per value, in order, and
    draws one id per row. *)
Lemma syncLogs_insert_rows_inr now values : forall table supply inserted table' supply',
  syncLogs_insert_rows now values table supply = inr (inserted, table', supply') ->
  table' = table ++ inserted
  /\ supply' = (supply + N.of_nat (List.length values))%N
  /\ Forall2 (row_of now) values inserted
  /\ map SyncLog.id inserted = generated_ids supply (List.length values).
Proof.
  induction values as [|v rest IH]; intros table supply inserted table' supply' H; simpl in H.
  - injection H as <- <- <-. rewrite app_nil_r, N.add_0_r. repeat split; constructor.
  - destruct (int4 (NewSyncLog.sequence v)); simpl in H; [|discriminate].
    destruct (sync_logs_user_timestamp_idx table v); [discriminate|].
    match type of H with
    | match ?call with _ => _ end = _ => destruct call as [e|[[ins t] s]] eqn:E
    end; [discriminate|].
    injection H as <- <- <-.
    apply IH in E. destruct E as (-> & -> & HF & Hids).
    rewrite <- app_assoc. simpl. repeat split.
    + lia.
    + constructor; [|exact HF]. unfold row_of; simpl. repeat split; reflexivity.
    + f_equal. exact Hids.
Qed.


(** The statement fails as a whole when one value meets a stored row of its
    user and timestamp. *)
Lemma syncLogs_insert_rows_duplicate now values : forall table supply,
  Exists (fun v => sync_logs_user_timestamp_idx table v = true) values ->
  exists e, syncLogs_insert_rows now values table supply = inl e.
Proof.
  induction values as [|v rest IH]; intros table supply Hex; simpl.
  - inversion Hex.
  - destruct (int4 (NewSyncLog.sequence v)); simpl; [|eauto].
    destruct (sync_logs_user_timestamp_idx table v) eqn:Hi; [eauto|].
    inversion Hex as [? ? Hv|? ? Hrest]; subst; [congruence|].
    match goal with
    | |- context [syncLogs_insert_rows now rest ?t ?s] =>
        destruct (IH t s) as (e & E)
    end.
    + eapply Exists_impl; [|exact Hrest]. intros v' Hv'. simpl in Hv'.
      unfold sync_logs_user_timestamp_idx in *. rewrite existsb_app, Hv'. reflexivity.
    + rewrite E. eauto.
Qed.

(** [post_push], unfolded once: the current maximum is read, the values are
    numbered from it, and the outcome is that of the one insert. *)
Lemma post_push_unfold user body now db :
  post_push user body now db
  = try_catch
      (insertedLogs <- syncLogs_insert
                         (assign_sequences user (PushBody.vaultId body)
                            (user_max_sequence db (userId user)) (PushBody.logs body)) now ;;
       ret (json (LogsPushedJson "Logs pushed successfully"
                    (List.length insertedLogs) (map returning insertedLogs)) 200))
      internal_server_error db.
Proof.
  unfold post_push, try_catch, bind, syncLogs_findFirst.
  rewrite sequence_or_zero_user_max. reflexivity.
Qed.

(** The two outcomes of a push: the whole batch stored, or nothing stored
    and the generic failure. *)
Lemma post_push_cases user body now db :
  post_push user body now db = (json (ErrorJson "Internal server error") 500, db)
  \/ exists inserted,
       post_push user body now db
       = (json (LogsPushedJson "Logs pushed successfully" (List.length (PushBody.logs body))
                  (map returning inserted)) 200,
          mkDb (vaultKeys db) (syncLogs db ++ inserted)
            (uuidSupply db + N.of_nat (List.length (PushBody.logs body)))%N)
       /\ Forall2 (row_of now)
            (assign_sequences user (PushBody.vaultId body)
               (user_max_sequence db (userId user)) (PushBody.logs body)) inserted
       /\ map SyncLog.id inserted
          = generated_ids (uuidSupply db) (List.length (PushBody.logs body)).
Proof.
  rewrite post_push_unfold. unfold try_catch, bind, syncLogs_insert, ret.
  set (values := assign_sequences _ _ _ _).
  assert (Hlen : List.length values = List.length (PushBody.logs body)).
  { unfold values. rewrite <- (length_map NewSyncLog.sequence), assign_sequences_sequence.
    clear. generalize (user_max_sequence db (userId user) + 1).
    induction (PushBody.logs body); intros; simpl; [reflexivity|f_equal; auto]. }
  destruct values as [|v rest] eqn:Ev; [left; reflexivity|].
  rewrite <- Ev in *.
  destruct (syncLogs_insert_rows now values (syncLogs db) (uuidSupply db))
    as [e|[[ins t] s]] eqn:E; rewrite Ev, <- Ev; [left; reflexivity|].
  right. exists ins.
  apply syncLogs_insert_rows_inr in E. destruct E as (-> & -> & HF & Hids).
  rewrite Hlen in *. repeat split; try assumption.
  rewrite <- Hlen. erewrite <- (Forall2_length HF). reflexivity.
Qed.


(** ** Push *)





(** C3 (as amended).  If an entry of a push batch repeats the
    (userId, haexTimestamp) pair of a stored row of the same user, the push
    fails with status 500 and the generic error body, and the store is left
    as it was: no entry of the batch is committed. *)
Theorem push_duplicate_timestamp_rejected user body now db :
  (exists log r,
     In log (PushBody.logs body) /\ In r (syncLogs db)
     /\ SyncLog.userId r = userId user
     /\ SyncLog.haexTimestamp r = PushLog.haexTimestamp log) ->
  post_push user body now db = (json (ErrorJson "Internal server error") 500, db).
Proof.
  intros (log & r & Hlog & Hr & Hu & Ht).
  rewrite post_push_unfold. unfold try_catch, bind, syncLogs_insert.
  set (values := assign_sequences _ _ _ _).
  assert (Hex : Exists (fun v => sync_logs_user_timestamp_idx (syncLogs db) v = true) values).
  { assert (Hin : In (PushLog.haexTimestamp log) (map NewSyncLog.haexTimestamp values)).
    { unfold values. rewrite assign_sequences_timestamp. apply in_map, Hlog. }
    apply in_map_iff in Hin. destruct Hin as (v & Hv & Hin).
    apply Exists_exists. exists v. split; [exact Hin|].
    unfold sync_logs_user_timestamp_idx. apply existsb_exists. exists r. split; [exact Hr|].
    pose proof (assign_sequences_user user (PushBody.vaultId body) (PushBody.logs body)
                  (user_max_sequence db (userId user))) as Husers.
    rewrite Forall_forall in Husers. specialize (Husers v Hin). simpl in Husers.
    apply andb_true_iff. rewrite !String.eqb_eq. split; congruence. }
  destruct (syncLogs_insert_rows_duplicate now values (syncLogs db) (uuidSupply db) Hex)
    as (e & E).
  rewrite E. destruct values; reflexivity.
Qed.

Lemma push_duplicate_timestamp_rejected_witness :
  post_push alice (PushBody.mk vault1 resubmitted_logs) 200 sample_db
  = (json (ErrorJson "Internal server error") 500, sample_db).
Proof.
  apply push_duplicate_timestamp_rejected.
  exists (PushLog.mk "Z" "n0" "t0"), (SyncLog.mk 0%N (userId alice) vault2 "Z" "n0" "t0" 5 100).
  simpl. repeat split; auto.
Defined.

(** C3 (as stated) fails: the outcome of a push that repeats a stored
    timestamp is not Conflict (409). *)
Lemma push_duplicate_is_not_conflict :
  ~ (forall user body now db,
       (exists log r,
          In log (PushBody.logs body) /\ In r (syncLogs db)
          /\ SyncLog.userId r = userId user
          /\ SyncLog.haexTimestamp r = PushLog.haexTimestamp log) ->
       status (fst (post_push user body now db)) = 409%nat
       /\ snd (post_push user body now db) = db).
Proof.
  intros H.
  destruct (H alice (PushBody.mk vault1 resubmitted_logs) 200 sample_db) as [E _].
  - exists (PushLog.mk "Z" "n0" "t0"), (SyncLog.mk 0%N (userId alice) vault2 "Z" "n0" "t0" 5 100).
    simpl. repeat split; auto.
  - vm_compute in E. discriminate E.
Qed.

(** C4.  A push whose list of logs is empty does not succeed with count 0:
    the insert is refused for want of values, the handler answers with
    status 500 and the generic error body; the store is left as it was. *)
Theorem push_empty_batch_fails user vaultId now db :
  post_push user (PushBody.mk vaultId []) now db
  = (json (ErrorJson "Internal server error") 500, db).
Proof. rewrite post_push_unfold. reflexivity. Qed.



(** ** Pull *)

Lemma and_whereConditions user body l :
  and_ (whereConditions user body) l = qualifying user body l.
Proof.
  unfold and_, whereConditions, qualifying.
  destruct (PullBody.afterSequence body); simpl; rewrite ?andb_true_r, ?andb_assoc; reflexivity.
Qed.

Lemma firstn_min_length {A} n (l : list A) :
  firstn (Nat.min n (List.length l)) l = firstn n l.
Proof.
  destruct (Nat.le_ge_cases n (List.length l)) as [H|H].
  - rewrite Nat.min_l by exact H. reflexivity.
  - rewrite Nat.min_r by exact H. rewrite firstn_all, firstn_all2 by exact H. reflexivity.
Qed.

Lemma In_firstn {A} n (l : list A) x : In x (firstn n l) -> In x l.
Proof.
  intros H. rewrite <- (firstn_skipn n l). apply in_or_app. left; exact H.
Qed.





(** [post_pull] on a non-negative limit, computed: the first [limit] rows of
    the ordered selection, and whether the selection has more. *)
Lemma post_pull_unfold user body db :
  0 <= PullBody.limit body ->
  post_pull user body db
  = (json (LogsPulledJson
             (map pulled
                (firstn (Z.to_nat (PullBody.limit body))
                   (orderBy asc_sequence (filter (qualifying user body) (syncLogs db)))))
             (PullBody.limit body
              <? Z.of_nat (List.length (filter (qualifying user body) (syncLogs db))))) 200,
     db).
Proof.
  intros Hlimit.
  unfold post_pull, try_catch, bind, syncLogs_findMany, ret.
  destruct (Z.ltb_spec (PullBody.limit body + 1) 0) as [Hneg|_]; [lia|].
  rewrite (filter_ext _ _ (and_whereConditions user body)).
  set (selection := orderBy asc_sequence (filter (qualifying user body) (syncLogs db))).
  assert (Hlen : List.length selection
                 = List.length (filter (qualifying user body) (syncLogs db)))
    by apply orderBy_length.
  rewrite <- Hlen.
  set (limit := PullBody.limit body) in *.
  assert (Hfetched : List.length (firstn (Z.to_nat (limit + 1)) selection)
                     = Nat.min (Z.to_nat limit + 1) (List.length selection)).
  { rewrite length_firstn. f_equal. lia. }
  f_equal. f_equal. f_equal.
  - f_equal. unfold slice0.
    destruct (Z.ltb_spec limit 0) as [Hneg|_]; [lia|].
    rewrite Hfetched.
    replace (Z.to_nat (Z.min limit
               (Z.of_nat (Nat.min (Z.to_nat limit + 1) (List.length selection)))))
      with (Nat.min (Z.to_nat limit) (List.length (firstn (Z.to_nat (limit + 1)) selection)))
      by (rewrite Hfetched; lia).
    rewrite firstn_min_length, firstn_firstn. f_equal. lia.
  - rewrite Hfetched.
    destruct (Z.ltb_spec limit (Z.of_nat (Nat.min (Z.to_nat limit + 1) (List.length selection))));
      destruct (Z.ltb_spec limit (Z.of_nat (List.length selection))); try reflexivity; lia.
Qed.



Lemma post_pull_reads user body db : snd (post_pull user body db) = db.
Proof.
  unfold post_pull, try_catch, bind, syncLogs_findMany, ret.
  destruct (PullBody.limit body + 1 <? 0); reflexivity.
Qed.

(** C8.  Pull reads and never writes: for every arguments tuple the store
    after a pull is the store before it, and a second pull with the same
    arguments returns the same response; the same holds of the route, with
    authentication and validation in front, whatever the time of the
    request. *)
Theorem pull_is_repeatable_read :
  (forall user body db,
     snd (post_pull user body db) = db
     /\ post_pull user body (snd (post_pull user body db)) = post_pull user body db)
  /\ (forall getUser uuid now now' authHeader data db,
        let req := mkRequest authHeader (POST_pull data) in
        snd (sync getUser uuid now req db) = db
        /\ sync getUser uuid now' req (snd (sync getUser uuid now req db))
           = sync getUser uuid now req db).
Proof.
  split.
  - intros user body db. split; [apply post_pull_reads|].
    rewrite post_pull_reads. reflexivity.
  - intros getUser uuid now now' authHeader data db req.
    assert (Hroute : forall t, snd (sync getUser uuid t req db) = db).
    { intros t. unfold sync, zValidator. simpl.
      destruct (authMiddleware getUser authHeader); [reflexivity|].
      destruct (pullLogsSchema uuid data); [apply post_pull_reads|reflexivity]. }
    split; [apply Hroute|]. rewrite Hroute.
    unfold sync, zValidator. simpl. reflexivity.
Qed.

(** ** Vault keys *)

Lemma find_hd_filter {A} (p : A -> bool) l : find p l = hd_error (filter p l).
Proof.
  induction l as [|x l IH]; simpl; [reflexivity|].
  destruct (p x); [reflexivity|exact IH].
Qed.


Lemma find_none_existsb {A} (p : A -> bool) l : find p l = None -> existsb p l = false.
Proof.
  induction l as [|x l IH]; simpl; [reflexivity|].
  destruct (p x); [discriminate|exact IH].
Qed.

Lemma vault_key_where_spec user vaultId k :
  vault_key_where user vaultId k = true
  <-> VaultKey.userId k = userId user /\ VaultKey.vaultId k = vaultId.
Proof.
  unfold vault_key_where. rewrite andb_true_iff, !String.eqb_eq. reflexivity.
Qed.

Lemma post_vault_key_existing user body now db k :
  find (vault_key_where user (VaultKeyBody.vaultId body)) (vaultKeys db) = Some k ->
  post_vault_key user body now db
  = (json (ErrorJson "Vault key already exists for this vault") 409, db).
Proof.
  intros H. unfold post_vault_key, try_catch, bind, vaultKeys_findFirst.
  rewrite H. reflexivity.
Qed.

Lemma post_vault_key_new user body now db :
  find (vault_key_where user (VaultKeyBody.vaultId body)) (vaultKeys db) = None ->
  post_vault_key user body now db
  = (json (VaultKeyStoredJson "Vault key stored successfully" (uuidSupply db)
             (VaultKeyBody.vaultId body) now) 201,
     mkDb (vaultKeys db
           ++ [VaultKey.mk (uuidSupply db) (userId user) (VaultKeyBody.vaultId body)
                 (VaultKeyBody.encryptedVaultKey body) (VaultKeyBody.salt body)
                 (VaultKeyBody.nonce body) now now])
       (syncLogs db) (N.succ (uuidSupply db))).
Proof.
  intros H. unfold post_vault_key, try_catch, bind, vaultKeys_findFirst, vaultKeys_insert.
  rewrite H. apply find_none_existsb in H.
  unfold vault_keys_user_vault_idx. simpl. unfold vault_key_where in H. rewrite H.
  reflexivity.
Qed.

Lemma get_vault_key_found user vaultId db k :
  find (vault_key_where user vaultId) (vaultKeys db) = Some k ->
  get_vault_key user vaultId db
  = (json (VaultKeyJson (VaultKey.vaultId k) (VaultKey.encryptedVaultKey k)
             (VaultKey.salt k) (VaultKey.nonce k) (VaultKey.createdAt k)) 200, db).
Proof.
  intros H. unfold get_vault_key, try_catch, bind, vaultKeys_findFirst.
  rewrite H. reflexivity.
Qed.

Lemma get_vault_key_missing user vaultId db :
  find (vault_key_where user vaultId) (vaultKeys db) = None ->
  get_vault_key user vaultId db = (json (ErrorJson "Vault key not found") 404, db).
Proof.
  intros H. unfold get_vault_key, try_catch, bind, vaultKeys_findFirst.
  rewrite H. reflexivity.
Qed.





(** ** Authentication *)

(** C7 (as amended).  Both ways of failing authentication are answered with
    status 401 and an error body before any route logic, the store
    untouched; the error text tells them apart: a missing or malformed
    header gets "Unauthorized - Missing or invalid token", a token that
    fails verification gets "Unauthorized - Invalid token".  Within each
    cause the response is the same for every request. *)
Theorem unauthorized_responses getUser uuid now req db :
  (header_missing_or_malformed (Authorization req) = true ->
   sync getUser uuid now req db
   = (json (ErrorJson "Unauthorized - Missing or invalid token") 401, db))
  /\ (verification_fails getUser (Authorization req) = true ->
      sync getUser uuid now req db
      = (json (ErrorJson "Unauthorized - Invalid token") 401, db)).
Proof.
  unfold sync, authMiddleware, header_missing_or_malformed, verification_fails.
  destruct (Authorization req) as [authHeader|]; split; intros H;
    try reflexivity; try discriminate.
  - rewrite H. reflexivity.
  - apply andb_true_iff in H. destruct H as [Hp Hv]. rewrite Hp. simpl.
    destruct (getUser (bearer_token authHeader)) as [[u|] [e|]|];
      try reflexivity; discriminate.
Qed.

Lemma unauthorized_responses_witness :
  sync getUser_sample uuid_shape 10 (mkRequest None (GET_vault_key vault1)) keyed_db
  = (json (ErrorJson "Unauthorized - Missing or invalid token") 401, keyed_db)
  /\ sync getUser_sample uuid_shape 10
       (mkRequest (Some "Bearer expired-token") (GET_vault_key vault1)) keyed_db
     = (json (ErrorJson "Unauthorized - Invalid token") 401, keyed_db).
Proof.
  split.
  - apply (unauthorized_responses getUser_sample uuid_shape 10
             (mkRequest None (GET_vault_key vault1)) keyed_db). reflexivity.
  - apply (unauthorized_responses getUser_sample uuid_shape 10
             (mkRequest (Some "Bearer expired-token") (GET_vault_key vault1)) keyed_db).
    reflexivity.
Defined.

(** C7 (as stated) fails: a request without a header and a request whose
    token fails verification get different responses. *)
Lemma unauthorized_responses_differ :
  ~ (forall getUser uuid now route db missing invalid,
       header_missing_or_malformed missing = true ->
       verification_fails getUser invalid = true ->
       fst (sync getUser uuid now (mkRequest missing route) db)
       = fst (sync getUser uuid now (mkRequest invalid route) db)).
Proof.
  intros H.
  specialize (H getUser_sample uuid_shape 10 (GET_vault_key vault1) keyed_db
                None (Some "Bearer expired-token") eq_refl eq_refl).
  vm_compute in H. discriminate H.
Qed.

(** ** Validation *)



(** ** Isolation *)

Lemma filter_filter_implied {A} (p q : A -> bool) l :
  (forall x, p x = true -> q x = true) -> filter p (filter q l) = filter p l.
Proof.
  intros H. induction l as [|x l IH]; simpl; [reflexivity|].
  destruct (q x) eqn:Eq; simpl.
  - rewrite IH. reflexivity.
  - destruct (p x) eqn:Ep; [|exact IH]. apply H in Ep. congruence.
Qed.

Lemma find_filter_implied {A} (p q : A -> bool) l :
  (forall x, p x = true -> q x = true) -> find p (filter q l) = find p l.
Proof.
  intros H. rewrite !find_hd_filter, filter_filter_implied by exact H. reflexivity.
Qed.

Lemma existsb_filter_implied {A} (p q : A -> bool) l :
  (forall x, p x = true -> q x = true) -> existsb p (filter q l) = existsb p l.
Proof.
  intros H. induction l as [|x l IH]; simpl; [reflexivity|].
  destruct (q x) eqn:Eq; simpl.
  - rewrite IH. reflexivity.
  - destruct (p x) eqn:Ep; [|exact IH]. apply H in Ep. congruence.
Qed.

Lemma user_max_sequence_owned_by db user :
  user_max_sequence (owned_by user db) user = user_max_sequence db user.
Proof.
  unfold user_max_sequence, owned_by. simpl.
  rewrite filter_filter_implied by auto. reflexivity.
Qed.

(** The multi-row insert of one user's values sees only that user's rows. *)
Lemma syncLogs_insert_rows_owned now user values : forall table supply,
  Forall (fun v => NewSyncLog.userId v = user) values ->
  match syncLogs_insert_rows now values table supply,
        syncLogs_insert_rows now values
          (filter (fun l => String.eqb (SyncLog.userId l) user) table) supply with
  | inl e, inl e' => e = e'
  | inr (inserted, _, _), inr (inserted', _, _) => inserted = inserted'
  | _, _ => False
  end.
Proof.
  induction values as [|v rest IH]; intros table supply Hu; simpl; [reflexivity|].
  inversion Hu as [|? ? Hv Hrest]; subst.
  destruct (int4 (NewSyncLog.sequence v)); simpl; [|reflexivity].
  assert (Hidx : sync_logs_user_timestamp_idx
                   (filter (fun l => String.eqb (SyncLog.userId l) (NewSyncLog.userId v)) table) v
                 = sync_logs_user_timestamp_idx table v).
  { unfold sync_logs_user_timestamp_idx. apply existsb_filter_implied.
    intros l Hl. apply andb_true_iff in Hl. apply Hl. }
  rewrite Hidx.
  destruct (sync_logs_user_timestamp_idx table v); [reflexivity|].
  match goal with
  | |- context [syncLogs_insert_rows now rest (table ++ [?row]) ?s] =>
      specialize (IH (table ++ [row]) s Hrest);
      rewrite filter_app in IH; simpl in IH; rewrite String.eqb_refl in IH
  end.
  destruct (syncLogs_insert_rows now rest (table ++ _) _) as [e|[[ins t] s]];
    destruct (syncLogs_insert_rows now rest (filter _ table ++ _) _) as [e'|[[ins' t'] s']];
    simpl in *; try contradiction; congruence.
Qed.

Lemma post_push_owned_by user body now db :
  fst (post_push user body now db)
  = fst (post_push user body now (owned_by (userId user) db)).
Proof.
  rewrite !post_push_unfold, user_max_sequence_owned_by.
  unfold try_catch, bind, syncLogs_insert, ret.
  set (values := assign_sequences _ _ _ _).
  pose proof (syncLogs_insert_rows_owned now (userId user) values (syncLogs db)
                (uuidSupply db)
                (assign_sequences_user user (PushBody.vaultId body) (PushBody.logs body) _))
    as H.
  destruct values as [|v rest] eqn:Ev; [reflexivity|]. rewrite <- Ev in *.
  simpl syncLogs. simpl uuidSupply.
  destruct (syncLogs_insert_rows now values (syncLogs db) (uuidSupply db))
    as [e|[[ins t] s]];
    destruct (syncLogs_insert_rows now values (filter _ (syncLogs db)) (uuidSupply db))
      as [e'|[[ins' t'] s']]; try contradiction; subst; reflexivity.
Qed.

Lemma post_vault_key_owned_by user body now db :
  fst (post_vault_key user body now db)
  = fst (post_vault_key user body now (owned_by (userId user) db)).
Proof.
  assert (Hfind : find (vault_key_where user (VaultKeyBody.vaultId body))
                    (vaultKeys (owned_by (userId user) db))
                  = find (vault_key_where user (VaultKeyBody.vaultId body)) (vaultKeys db)).
  { apply find_filter_implied. intros k Hk. apply andb_true_iff in Hk. apply Hk. }
  destruct (find (vault_key_where user (VaultKeyBody.vaultId body)) (vaultKeys db))
    as [k|] eqn:E.
  - rewrite (post_vault_key_existing _ _ _ _ _ E), (post_vault_key_existing _ _ _ _ _ Hfind).
    reflexivity.
  - rewrite (post_vault_key_new _ _ _ _ E), (post_vault_key_new _ _ _ _ Hfind).
    reflexivity.
Qed.

Lemma get_vault_key_owned_by user vaultId db :
  fst (get_vault_key user vaultId db)
  = fst (get_vault_key user vaultId (owned_by (userId user) db)).
Proof.
  unfold get_vault_key, try_catch, bind, vaultKeys_findFirst. simpl.
  rewrite find_filter_implied.
  2:{ intros k Hk. apply andb_true_iff in Hk. apply Hk. }
  destruct (find _ _); reflexivity.
Qed.

Lemma post_pull_owned_by user body db :
  0 <= PullBody.limit body ->
  fst (post_pull user body db) = fst (post_pull user body (owned_by (userId user) db)).
Proof.
  intros Hlimit. rewrite !post_pull_unfold by exact Hlimit. simpl.
  rewrite filter_filter_implied. 1: reflexivity.
  intros l Hl. unfold qualifying in Hl.
  apply andb_true_iff in Hl. destruct Hl as [Hl _].
  apply andb_true_iff in Hl. apply Hl.
Qed.

Lemma pullLogsSchema_limit uuid data body :
  pullLogsSchema uuid data = Some body -> 1 <= PullBody.limit body <= 1000.
Proof.
  unfold pullLogsSchema.
  destruct (uuid (PullInput.vaultId data)); simpl; [|discriminate].
  match goal with |- context [(1 <=? ?l) && (?l <=? 1000)] =>
    destruct (Z.leb_spec 1 l); simpl; [|discriminate];
    destruct (Z.leb_spec l 1000); simpl; [|discriminate]
  end.
  intros Hbody. injection Hbody as <-. simpl. lia.
Qed.

(** What each handler discloses is taken from the caller's rows. *)
Lemma post_vault_key_discloses user body now db :
  discloses_only (userId user) (snd (post_vault_key user body now db))
    (fst (post_vault_key user body now db)).
Proof.
  destruct (find (vault_key_where user (VaultKeyBody.vaultId body)) (vaultKeys db))
    as [k|] eqn:E.
  - rewrite (post_vault_key_existing _ _ _ _ _ E). exact I.
  - rewrite (post_vault_key_new _ _ _ _ E). unfold discloses_only. simpl.
    eexists. split; [apply in_or_app; right; left; reflexivity|].
    simpl. repeat split; reflexivity.
Qed.

Lemma get_vault_key_discloses user vaultId db :
  discloses_only (userId user) (snd (get_vault_key user vaultId db))
    (fst (get_vault_key user vaultId db)).
Proof.
  destruct (find (vault_key_where user vaultId) (vaultKeys db)) as [k|] eqn:E.
  - rewrite (get_vault_key_found _ _ _ _ E). unfold discloses_only. simpl.
    pose proof (find_some _ _ E) as [Hin Hk]. apply vault_key_where_spec in Hk.
    exists k. repeat split; try reflexivity; [exact Hin|apply Hk].
  - rewrite (get_vault_key_missing _ _ _ E). exact I.
Qed.

Lemma post_push_discloses user body now db :
  discloses_only (userId user) (snd (post_push user body now db))
    (fst (post_push user body now db)).
Proof.
  destruct (post_push_cases user body now db) as [->|(ins & -> & HF & _)]; [exact I|].
  unfold discloses_only. simpl. intros e He.
  apply in_map_iff in He. destruct He as (l & <- & Hl).
  exists l. split; [apply in_or_app; right; exact Hl|]. split; [|reflexivity].
  pose proof (assign_sequences_user user (PushBody.vaultId body) (PushBody.logs body)
                (user_max_sequence db (userId user))) as Hu.
  revert Hu Hl. induction HF as [|v r vs rs Hr _ IH]; intros Hu Hl; [destruct Hl|].
  inversion Hu; subst. destruct Hl as [<-|Hl]; [|auto].
  destruct Hr as (Hru & _). congruence.
Qed.

Lemma post_pull_discloses user body db :
  0 <= PullBody.limit body ->
  discloses_only (userId user) (snd (post_pull user body db)) (fst (post_pull user body db)).
Proof.
  intros Hlimit. rewrite post_pull_unfold by exact Hlimit.
  unfold discloses_only. simpl. intros e He.
  apply in_map_iff in He. destruct He as (l & <- & Hl).
  apply In_firstn in Hl. apply orderBy_In in Hl. apply filter_In in Hl.
  destruct Hl as [Hin Hq]. exists l. split; [exact Hin|]. split; [|reflexivity].
  unfold qualifying in Hq.
  apply andb_true_iff in Hq. destruct Hq as [Hq _].
  apply andb_true_iff in Hq. destruct Hq as [Hu _].
  apply String.eqb_eq, Hu.
Qed.

(** C6.  For every endpoint and every request of an authenticated user,
    whatever the vaultId: every vault key and log entry in the response is
    taken from a stored row whose userId is the caller's, and the response
    is the one the caller would get if the store held the caller's rows
    only, so that no row of another user shows in it. *)
Theorem responses_disclose_own_rows_only getUser uuid now req db user :
  authMiddleware getUser (Authorization req) = inr user ->
  discloses_only (userId user) (snd (sync getUser uuid now req db))
    (fst (sync getUser uuid now req db))
  /\ fst (sync getUser uuid now req db)
     = fst (sync getUser uuid now req (owned_by (userId user) db)).
Proof.
  intros Hauth. unfold sync, zValidator. rewrite Hauth.
  destruct (route req) as [data|vaultId|data|data].
  - destruct (vaultKeySchema uuid data) as [body|]; [|split; [exact I|reflexivity]].
    split; [apply post_vault_key_discloses|apply post_vault_key_owned_by].
  - split; [apply get_vault_key_discloses|apply get_vault_key_owned_by].
  - destruct (pushLogsSchema uuid data) as [body|]; [|split; [exact I|reflexivity]].
    split; [apply post_push_discloses|apply post_push_owned_by].
  - destruct (pullLogsSchema uuid data) as [body|] eqn:E; [|split; [exact I|reflexivity]].
    apply pullLogsSchema_limit in E.
    split; [apply post_pull_discloses|apply post_pull_owned_by]; lia.
Qed.

(** Alice asks for bob's vault id, by key and by pull: she gets 404 and her
    own rows of that vault, bob's key and row 7 stay out. *)
Lemma responses_disclose_own_rows_only_witness :
  fst (sync getUser_sample uuid_shape 10
         (mkRequest (Some "Bearer alice-token") (GET_vault_key "v1")) keyed_db)
  = fst (sync getUser_sample uuid_shape 10
           (mkRequest (Some "Bearer alice-token") (GET_vault_key "v1"))
           (owned_by (userId alice) keyed_db))
  /\ discloses_only (userId alice) keyed_db
       (fst (sync getUser_sample uuid_shape 10
               (mkRequest (Some "Bearer alice-token")
                  (POST_pull (PullInput.mk vault1 None None))) keyed_db)).
Proof.
  split.
  - apply (responses_disclose_own_rows_only getUser_sample uuid_shape 10
             (mkRequest (Some "Bearer alice-token") (GET_vault_key "v1")) keyed_db alice).
    reflexivity.
  - apply (responses_disclose_own_rows_only getUser_sample uuid_shape 10
             (mkRequest (Some "Bearer alice-token")
                (POST_pull (PullInput.mk vault1 None None))) keyed_db alice).
    reflexivity.
Defined.

(** ** Routes and handlers *)

(** A request that passes authentication and validation runs the handler on
    the verified user and the parsed body. *)
Lemma sync_runs_handler getUser uuid now authHeader user db :
  authMiddleware getUser authHeader = inr user ->
  (forall body, uuid (VaultKeyBody.vaultId body) = true ->
     sync getUser uuid now (mkRequest authHeader (POST_vault_key body)) db
     = post_vault_key user body now db)
  /\ (forall vaultId,
        sync getUser uuid now (mkRequest authHeader (GET_vault_key vaultId)) db
        = get_vault_key user vaultId db)
  /\ (forall body, uuid (PushBody.vaultId body) = true ->
        sync getUser uuid now (mkRequest authHeader (POST_push body)) db
        = post_push user body now db)
  /\ (forall vaultId afterSequence limit,
        uuid vaultId = true -> 1 <= limit <= 1000 ->
        sync getUser uuid now
          (mkRequest authHeader (POST_pull (PullInput.mk vaultId afterSequence (Some limit)))) db
        = post_pull user (PullBody.mk vaultId afterSequence limit) db)
  /\ (forall vaultId afterSequence,
        uuid vaultId = true ->
        sync getUser uuid now
          (mkRequest authHeader (POST_pull (PullInput.mk vaultId afterSequence None))) db
        = post_pull user (PullBody.mk vaultId afterSequence 100) db).
Proof.
  intros Hauth. unfold sync, zValidator. simpl. rewrite Hauth.
  repeat split.
  - intros body Hb. unfold vaultKeySchema. rewrite Hb. reflexivity.
  - intros body Hb. unfold pushLogsSchema. rewrite Hb. reflexivity.
  - intros vaultId afterSequence limit Hv [Hlo Hhi]. unfold pullLogsSchema. simpl.
    rewrite Hv. apply Z.leb_le in Hlo, Hhi. rewrite Hlo, Hhi. reflexivity.
  - intros vaultId afterSequence Hv. unfold pullLogsSchema. simpl.
    rewrite Hv. reflexivity.
Qed.

(** ** The scenarios of the specification, evaluated *)

Example push_six_seven :
  sync getUser_sample uuid_shape 200
    (mkRequest (Some "Bearer alice-token") (POST_push (PushBody.mk vault1 two_logs)))
    sample_db
  = (json (LogsPushedJson "Logs pushed successfully" 2
             [ PushedLog.mk 2%N 6 "t1" 200; PushedLog.mk 3%N 7 "t2" 200 ]) 200,
     mkDb []
          (syncLogs sample_db
           ++ [ SyncLog.mk 2%N (userId alice) vault1 "A" "n1" "t1" 6 200;
                SyncLog.mk 3%N (userId alice) vault1 "B" "n2" "t2" 7 200 ])
          4%N).
Proof. reflexivity. Qed.

Example push_vault_id_v1_refused :
  sync getUser_sample uuid_shape 200
    (mkRequest (Some "Bearer alice-token") (POST_push (PushBody.mk "v1" two_logs)))
    sample_db
  = (json ZodErrorJson 400, sample_db).
Proof. reflexivity. Qed.

Example push_twice_same_timestamps :
  let req := mkRequest (Some "Bearer alice-token") (POST_push (PushBody.mk vault1 two_logs)) in
  let db1 := snd (sync getUser_sample uuid_shape 200 req sample_db) in
  sync getUser_sample uuid_shape 201 req db1
  = (json (ErrorJson "Internal server error") 500, db1).
Proof. reflexivity. Qed.

Example pull_after_six_limit_one :
  sync getUser_sample uuid_shape 300
    (mkRequest (Some "Bearer alice-token")
       (POST_pull (PullInput.mk vault1 (Some 6) (Some 1)))) paged_db
  = (json (LogsPulledJson [ PulledLog.mk 0%N "B" "n2" "t2" 7 100 ] true) 200, paged_db).
Proof. reflexivity. Qed.

Example pull_default_limit :
  sync getUser_sample uuid_shape 300
    (mkRequest (Some "Bearer alice-token") (POST_pull (PullInput.mk vault1 None None)))
    paged_db
  = (json (LogsPulledJson
             [ PulledLog.mk 2%N "A" "n1" "t1" 6 102;
               PulledLog.mk 0%N "B" "n2" "t2" 7 100;
               PulledLog.mk 3%N "C" "n3" "t3" 8 103 ] false) 200, paged_db).
Proof. reflexivity. Qed.

Example pull_limit_out_of_range :
  sync getUser_sample uuid_shape 300
    (mkRequest (Some "Bearer alice-token")
       (POST_pull (PullInput.mk vault1 None (Some 1001)))) paged_db
  = (json ZodErrorJson 400, paged_db).
Proof. reflexivity. Qed.

Example vault_key_twice :
  let body := VaultKeyBody.mk vault1 "key" "salt" "nonce" in
  let req := mkRequest (Some "Bearer alice-token") (POST_vault_key body) in
  let first := sync getUser_sample uuid_shape 500 req empty_db in
  let second := sync getUser_sample uuid_shape 501 req (snd first) in
  fst first = json (VaultKeyStoredJson "Vault key stored successfully" 0%N vault1 500) 201
  /\ fst second = json (ErrorJson "Vault key already exists for this vault") 409
  /\ snd second = snd first
  /\ sync getUser_sample uuid_shape 502
       (mkRequest (Some "Bearer alice-token") (GET_vault_key vault1)) (snd second)
     = (json (VaultKeyJson vault1 "key" "salt" "nonce" 500) 200, snd second).
Proof. repeat split; reflexivity. Qed.

(** * Further properties of the routes *)

(** ** What a request does to the store *)

(** A request is refused in front of the handlers, or is a call of one. *)
Lemma sync_is_call getUser uuid now req db :
  snd (sync getUser uuid now req db) = db
  \/ exists c user,
       authMiddleware getUser (Authorization req) = inr user
       /\ caller c = user
       /\ sync getUser uuid now req db = call c db.
Proof.
  unfold sync, zValidator.
  destruct (authMiddleware getUser (Authorization req)) as [res|user] eqn:Hauth;
    [left; reflexivity|].
  destruct (route req) as [data|vaultId|data|data].
  - destruct (vaultKeySchema uuid data) as [body|]; [|left; reflexivity].
    right. exists (CreateVaultKey user body now), user. auto.
  - right. exists (FindVaultKey user vaultId), user. auto.
  - destruct (pushLogsSchema uuid data) as [body|]; [|left; reflexivity].
    right. exists (Push user body now), user. auto.
  - destruct (pullLogsSchema uuid data) as [body|]; [|left; reflexivity].
    right. exists (Pull user body), user. auto.
Qed.

(** What a handler call does to the store: nothing, one vault key of the
    caller appended, or the caller's rows of one push appended. *)
Lemma call_effect c db :
  snd (call c db) = db
  \/ (exists k,
        snd (call c db)
        = mkDb (vaultKeys db ++ [k]) (syncLogs db) (N.succ (uuidSupply db))
        /\ VaultKey.userId k = userId (caller c)
        /\ VaultKey.vaultId k = called_vault c
        /\ find (vault_key_where (caller c) (called_vault c)) (vaultKeys db) = None
        /\ fst (call c db)
           = json (VaultKeyStoredJson "Vault key stored successfully" (VaultKey.id k)
                     (VaultKey.vaultId k) (VaultKey.createdAt k)) 201)
  \/ (exists body now inserted,
        c = Push (caller c) body now
        /\ PushBody.logs body <> []
        /\ snd (call c db)
           = mkDb (vaultKeys db) (syncLogs db ++ inserted)
               (uuidSupply db + N.of_nat (List.length (PushBody.logs body)))%N
        /\ Forall2 (row_of now)
             (assign_sequences (caller c) (PushBody.vaultId body)
                (user_max_sequence db (userId (caller c))) (PushBody.logs body)) inserted
        /\ fst (call c db)
           = json (LogsPushedJson "Logs pushed successfully"
                     (List.length (PushBody.logs body)) (map returning inserted)) 200).
Proof.
  destruct c as [user body now|user vaultId|user body now|user body]; simpl.
  - destruct (find (vault_key_where user (VaultKeyBody.vaultId body)) (vaultKeys db))
      as [k|] eqn:E.
    + rewrite (post_vault_key_existing _ _ _ _ _ E). left; reflexivity.
    + rewrite (post_vault_key_new _ _ _ _ E). right; left.
      eexists. split; [reflexivity|]. simpl. repeat split; auto.
  - left. unfold get_vault_key, try_catch, bind, vaultKeys_findFirst.
    destruct (find _ _); reflexivity.
  - destruct (post_push_cases user body now db) as [->|(ins & -> & HF & _)];
      [left; reflexivity|].
    destruct (PushBody.logs body) as [|log rest] eqn:Elogs.
    + inversion HF; subst. left. simpl. rewrite app_nil_r, N.add_0_r.
      destruct db; reflexivity.
    + right; right. exists body, now, ins. rewrite Elogs.
      repeat split; try assumption; discriminate.
  - left. apply post_pull_reads.
Qed.

Lemma sync_effect getUser uuid now req db :
  snd (sync getUser uuid now req db) = db
  \/ exists c,
       authMiddleware getUser (Authorization req) = inr (caller c)
       /\ sync getUser uuid now req db = call c db
       /\ snd (call c db) <> db.
Proof.
  destruct (sync_is_call getUser uuid now req db) as [H|(c & user & Hauth & Hc & Hcall)];
    [left; exact H|].
  destruct (call_effect c db) as [H|H].
  - left. rewrite Hcall. exact H.
  - right. exists c. rewrite Hc. repeat split; try assumption.
    intros Heq. destruct H as [(k & Hk & _)|(body & t & ins & _ & Hne & Hk & HF & _)];
      rewrite Hk in Heq.
    + apply (f_equal vaultKeys) in Heq. simpl in Heq.
      apply (f_equal (@List.length _)) in Heq. rewrite length_app in Heq. simpl in Heq. lia.
    + apply (f_equal syncLogs) in Heq. simpl in Heq.
      apply (f_equal (@List.length _)) in Heq. rewrite length_app in Heq.
      apply Forall2_length in HF.
      assert (List.length ins <> 0%nat).
      { rewrite <- HF. clear - Hne. destruct (PushBody.logs body); [congruence|].
        simpl. discriminate. }
      lia.
Qed.

(** X1.  Whatever requests are served, in whatever order and by whomever,
    the rows that were stored stay where they are and as they are: each
    table afterwards is the table before followed by the rows added. *)
Theorem requests_only_append getUser uuid requests db :
  exists keys logs,
    vaultKeys (serve getUser uuid requests db) = vaultKeys db ++ keys
    /\ syncLogs (serve getUser uuid requests db) = syncLogs db ++ logs.
Proof.
  revert db. induction requests as [|[now req] requests IH]; intros db; simpl.
  - exists [], []. rewrite !app_nil_r. auto.
  - destruct (IH (snd (sync getUser uuid now req db))) as (keys & logs & Hk & Hl).
    rewrite Hk, Hl.
    destruct (sync_is_call getUser uuid now req db) as [->|(c & user & _ & _ & ->)];
      [eauto|].
    destruct (call_effect c db) as [->|[(k & -> & _)|(body & t & ins & _ & _ & -> & _)]];
      simpl; [eauto| |].
    + exists (k :: keys), logs. rewrite <- app_assoc. auto.
    + exists keys, (ins ++ logs). rewrite <- app_assoc. auto.
Qed.

(** X2.  A request changes the store only when it is answered 201 by the
    vault-key route, which then added exactly one vault key, or 200 by the
    push route, which then added exactly [count] log rows, [count] at least
    1.  Every other response (400, 401, 404, 409, 500, and the 200 of the
    two read routes) leaves the store as it was. *)
Theorem store_changes_only_on_success getUser uuid now req db :
  let res := fst (sync getUser uuid now req db) in
  let db' := snd (sync getUser uuid now req db) in
  db' = db
  \/ (exists id vaultId createdAt k,
        res = json (VaultKeyStoredJson "Vault key stored successfully" id vaultId createdAt) 201
        /\ vaultKeys db' = vaultKeys db ++ [k]
        /\ syncLogs db' = syncLogs db)
  \/ (exists count logs inserted,
        res = json (LogsPushedJson "Logs pushed successfully" count logs) 200
        /\ (0 < count)%nat
        /\ List.length inserted = count
        /\ List.length logs = count
        /\ vaultKeys db' = vaultKeys db
        /\ syncLogs db' = syncLogs db ++ inserted).
Proof.
  intros res db'. subst res db'.
  destruct (sync_is_call getUser uuid now req db) as [H|(c & user & _ & _ & ->)];
    [left; exact H|].
  destruct (call_effect c db)
    as [H|[(k & Hk & _ & _ & _ & Hres)|(body & t & ins & Hc & Hne & Hk & HF & Hres)]].
  - left; exact H.
  - right; left. rewrite Hk, Hres. simpl. eauto 10.
  - right; right. rewrite Hk, Hres. simpl.
    pose proof (Forall2_length HF) as Hlen.
    assert (Hn : List.length ins = List.length (PushBody.logs body)).
    { rewrite <- Hlen. rewrite <- (length_map NewSyncLog.sequence), assign_sequences_sequence.
      clear. generalize (user_max_sequence db (userId (caller c)) + 1).
      induction (PushBody.logs body); intros; simpl; [reflexivity|f_equal; auto]. }
    exists (List.length (PushBody.logs body)), (map returning ins), ins.
    repeat split; try assumption.
    + destruct (PushBody.logs body); [congruence|simpl; lia].
    + rewrite length_map. exact Hn.
Qed.

Lemma filter_none {A} (p : A -> bool) l :
  Forall (fun x => p x = false) l -> filter p l = [].
Proof.
  induction 1 as [|x l Hx _ IH]; simpl; [reflexivity|]. rewrite Hx. exact IH.
Qed.

Lemma filter_all {A} (p : A -> bool) l :
  Forall (fun x => p x = true) l -> filter p l = l.
Proof.
  induction 1 as [|x l Hx _ IH]; simpl; [reflexivity|]. rewrite Hx, IH. reflexivity.
Qed.

(** The rows of a push are rows of the caller, in the vault named. *)
Lemma pushed_rows_owner user vaultId now logs current inserted :
  Forall2 (row_of now) (assign_sequences user vaultId current logs) inserted ->
  Forall (fun l => SyncLog.userId l = userId user /\ SyncLog.vaultId l = vaultId) inserted.
Proof.
  revert current inserted. induction logs as [|log rest IH]; intros current inserted H;
    simpl in H; inversion H; subst; constructor.
  - match goal with Hr : row_of _ _ _ |- _ => destruct Hr as (Hu & Hv & _) end.
    simpl in *. auto.
  - eapply IH; eassumption.
Qed.

(** X3.  A request of an authenticated user adds rows of that user only:
    every vault key and every log row the request appends carries the
    caller's userId, and the rows of every other user are the same before
    and after. *)
Theorem requests_write_own_rows_only getUser uuid now req db user :
  authMiddleware getUser (Authorization req) = inr user ->
  let db' := snd (sync getUser uuid now req db) in
  exists keys logs,
    vaultKeys db' = vaultKeys db ++ keys
    /\ syncLogs db' = syncLogs db ++ logs
    /\ Forall (fun k => VaultKey.userId k = userId user) keys
    /\ Forall (fun l => SyncLog.userId l = userId user) logs
    /\ forall other,
         other <> userId user ->
         vaultKeys (owned_by other db') = vaultKeys (owned_by other db)
         /\ syncLogs (owned_by other db') = syncLogs (owned_by other db).
Proof.
  intros Hauth db'. subst db'.
  assert (Hsame : exists keys logs,
             vaultKeys db = vaultKeys db ++ keys /\ syncLogs db = syncLogs db ++ logs
             /\ Forall (fun k => VaultKey.userId k = userId user) keys
             /\ Forall (fun l => SyncLog.userId l = userId user) logs
             /\ forall other, other <> userId user ->
                  vaultKeys (owned_by other db) = vaultKeys (owned_by other db)
                  /\ syncLogs (owned_by other db) = syncLogs (owned_by other db)).
  { exists [], []. rewrite !app_nil_r. repeat split; constructor. }
  destruct (sync_is_call getUser uuid now req db) as [->|(c & user' & Hauth' & Hc & ->)];
    [exact Hsame|].
  rewrite Hauth in Hauth'. injection Hauth' as <-.
  destruct (call_effect c db)
    as [->|[(k & -> & Hu & _)|(body & t & ins & _ & _ & -> & HF & _)]]; [exact Hsame| |].
  - exists [k], []. simpl. rewrite app_nil_r, Hc in *.
    repeat split; try (constructor; auto; fail).
    rewrite filter_app. simpl.
    destruct (String.eqb_spec (VaultKey.userId k) other); [congruence|].
    apply app_nil_r.
  - exists [], ins. simpl. rewrite app_nil_r, Hc in *.
    apply pushed_rows_owner in HF.
    repeat split; try (constructor; fail).
    + eapply Forall_impl; [|exact HF]. intros l Hl; apply Hl.
    + rewrite filter_app, (filter_none _ ins), app_nil_r; [reflexivity|].
      eapply Forall_impl; [|exact HF]. intros l [Hl _]. simpl.
      apply String.eqb_neq. congruence.
Qed.

Lemma requests_write_own_rows_only_witness :
  exists keys logs,
    syncLogs (snd (sync getUser_sample uuid_shape 200
                     (mkRequest (Some "Bearer alice-token")
                        (POST_push (PushBody.mk vault1 two_logs))) sample_db))
    = syncLogs sample_db ++ logs
    /\ vaultKeys (snd (sync getUser_sample uuid_shape 200
                         (mkRequest (Some "Bearer alice-token")
                            (POST_push (PushBody.mk vault1 two_logs))) sample_db))
       = vaultKeys sample_db ++ keys
    /\ Forall (fun l => SyncLog.userId l = userId alice) logs.
Proof.
  destruct (requests_write_own_rows_only getUser_sample uuid_shape 200
              (mkRequest (Some "Bearer alice-token")
                 (POST_push (PushBody.mk vault1 two_logs))) sample_db alice eq_refl)
    as (keys & logs & Hk & Hl & _ & Hlogs & _).
  exists keys, logs. auto.
Defined.

(** ** The unique indexes *)

Lemma NoDup_snoc {A} (l : list A) x : NoDup l -> ~ In x l -> NoDup (l ++ [x]).
Proof.
  intros Hl Hx. apply NoDup_app; [exact Hl|repeat constructor; intros []|].
  intros y Hy [<-|[]]. exact (Hx Hy).
Qed.

Lemma sync_logs_index_free table v :
  sync_logs_user_timestamp_idx table v = false ->
  ~ In (NewSyncLog.userId v, NewSyncLog.haexTimestamp v)
       (map (fun l => (SyncLog.userId l, SyncLog.haexTimestamp l)) table).
Proof.
  intros H Hin. apply in_map_iff in Hin. destruct Hin as (l & E & Hl).
  injection E as Hu Ht.
  assert (Htrue : sync_logs_user_timestamp_idx table v = true); [|congruence].
  unfold sync_logs_user_timestamp_idx. apply existsb_exists. exists l.
  split; [exact Hl|]. rewrite Hu, Ht, !String.eqb_refl. reflexivity.
Qed.

Lemma syncLogs_insert_rows_unique now values : forall table supply inserted table' supply',
  syncLogs_insert_rows now values table supply = inr (inserted, table', supply') ->
  NoDup (map (fun l => (SyncLog.userId l, SyncLog.haexTimestamp l)) table) ->
  NoDup (map (fun l => (SyncLog.userId l, SyncLog.haexTimestamp l)) table').
Proof.
  induction values as [|v rest IH]; intros table supply inserted table' supply' H Hnd;
    simpl in H.
  - injection H as _ <- _. exact Hnd.
  - destruct (int4 (NewSyncLog.sequence v)); simpl in H; [|discriminate].
    destruct (sync_logs_user_timestamp_idx table v) eqn:Hidx; [discriminate|].
    match type of H with
    | match ?call with _ => _ end = _ => destruct call as [e|[[ins t] s]] eqn:E
    end; [discriminate|].
    injection H as _ <- _.
    eapply IH; [exact E|].
    rewrite map_app. simpl. apply NoDup_snoc; [exact Hnd|].
    apply sync_logs_index_free, Hidx.
Qed.

Lemma call_keeps_unique c db :
  vault_keys_unique db -> sync_logs_unique db ->
  vault_keys_unique (snd (call c db)) /\ sync_logs_unique (snd (call c db)).
Proof.
  intros Hk Hl. unfold vault_keys_unique, sync_logs_unique in *.
  destruct (call_effect c db)
    as [->|[(k & -> & Hu & Hv & Hfind & _)|(body & t & ins & Hc & _ & _)]];
    [auto| |].
  - simpl. split; [|exact Hl]. rewrite map_app. simpl.
    apply NoDup_snoc; [exact Hk|].
    intros Hin. apply in_map_iff in Hin. destruct Hin as (k' & E & Hk').
    injection E as Eu Ev.
    apply (find_none _ _ Hfind) in Hk'.
    assert (vault_key_where (caller c) (called_vault c) k' = true); [|congruence].
    apply vault_key_where_spec. split; congruence.
  - rewrite Hc. simpl. rewrite post_push_unfold.
    unfold try_catch, bind, syncLogs_insert, ret.
    destruct (assign_sequences _ _ _ _) as [|v rest] eqn:Ev; [auto|]. rewrite <- Ev.
    destruct (syncLogs_insert_rows _ _ _ _) as [e|[[ins' t'] s']] eqn:E; [auto|].
    simpl. split; [exact Hk|].
    eapply syncLogs_insert_rows_unique; eassumption.
Qed.

(** X4.  The two unique indexes hold through any run of requests: if no two
    vault keys share (userId, vaultId) and no two log rows share
    (userId, haexTimestamp) before, none do after; in particular none do
    in a store filled from empty. *)
Theorem unique_indexes_preserved getUser uuid requests db :
  vault_keys_unique db -> sync_logs_unique db ->
  vault_keys_unique (serve getUser uuid requests db)
  /\ sync_logs_unique (serve getUser uuid requests db).
Proof.
  revert db. induction requests as [|[now req] requests IH]; intros db Hk Hl; simpl;
    [auto|].
  destruct (sync_is_call getUser uuid now req db) as [->|(c & user & _ & _ & ->)];
    [auto|].
  destruct (call_keeps_unique c db Hk Hl). auto.
Qed.

Lemma unique_indexes_preserved_witness :
  let push := mkRequest (Some "Bearer alice-token") (POST_push (PushBody.mk vault1 two_logs)) in
  vault_keys_unique (serve getUser_sample uuid_shape [(200, push); (201, push)] empty_db)
  /\ sync_logs_unique (serve getUser_sample uuid_shape [(200, push); (201, push)] empty_db).
Proof.
  intros push.
  apply (unique_indexes_preserved getUser_sample uuid_shape [(200, push); (201, push)]
           empty_db); constructor.
Defined.

(** ** Sequence numbers over a run of requests *)

Lemma consecutive_length start n : List.length (consecutive start n) = n.
Proof. revert start. induction n; intros; simpl; [reflexivity|f_equal; auto]. Qed.

Lemma consecutive_app start n k :
  consecutive start n ++ consecutive (start + Z.of_nat n) k = consecutive start (n + k).
Proof.
  revert start. induction n as [|n IH]; intros start.
  - simpl. rewrite Z.add_0_r. reflexivity.
  - simpl consecutive at 1. simpl Nat.add. simpl consecutive at 3. simpl app. f_equal.
    rewrite <- IH. do 2 f_equal. lia.
Qed.

Lemma consecutive_In start n z :
  start <= z < start + Z.of_nat n -> In z (consecutive start n).
Proof.
  revert start. induction n as [|n IH]; intros start Hz; [lia|]. simpl.
  destruct (Z.eq_dec start z); [left; assumption|right; apply IH; lia].
Qed.

Lemma user_sequences_In db user r :
  In r (syncLogs db) -> SyncLog.userId r = user ->
  In (SyncLog.sequence r) (user_sequences db user).
Proof.
  intros Hr Hu. unfold user_sequences. apply in_map, filter_In.
  split; [exact Hr|]. apply String.eqb_eq, Hu.
Qed.

Lemma user_sequences_row db user z :
  In z (user_sequences db user) ->
  exists r, In r (syncLogs db) /\ SyncLog.userId r = user /\ SyncLog.sequence r = z.
Proof.
  unfold user_sequences. intros H. apply in_map_iff in H. destruct H as (r & E & Hr).
  apply filter_In in Hr. destruct Hr as [Hr Hu]. apply String.eqb_eq in Hu. eauto.
Qed.

(** With rows numbered 1 to k, the current maximum is k. *)
Lemma gapless_user_max db user :
  user_sequences db user = consecutive 1 (List.length (user_sequences db user)) ->
  user_max_sequence db user = Z.of_nat (List.length (user_sequences db user)).
Proof.
  intros H. set (k := List.length (user_sequences db user)) in *.
  apply (current_max_unique db user); [apply user_max_sequence_current_max|].
  split.
  - intros r Hr Hu. pose proof (user_sequences_In db user r Hr Hu) as Hin.
    rewrite H in Hin. apply consecutive_bounds in Hin. lia.
  - destruct k as [|k'] eqn:Ek.
    + right. split; [|reflexivity]. intros r Hr Hu.
      pose proof (user_sequences_In db user r Hr Hu) as Hin.
      rewrite H in Hin. destruct Hin.
    + left. assert (Hin : In (Z.of_nat (S k')) (user_sequences db user)).
      { rewrite H. apply consecutive_In. lia. }
      apply user_sequences_row in Hin. destruct Hin as (r & Hr & Hu & Hs). eauto.
Qed.

Lemma user_sequences_pushed db user inserted supply other :
  Forall (fun l => SyncLog.userId l = user) inserted ->
  user_sequences (mkDb (vaultKeys db) (syncLogs db ++ inserted) supply) other
  = user_sequences db other
    ++ (if String.eqb user other then map SyncLog.sequence inserted else []).
Proof.
  intros Hins. unfold user_sequences. simpl. rewrite filter_app, map_app. f_equal.
  destruct (String.eqb_spec user other) as [<-|Hne].
  - rewrite filter_all; [reflexivity|].
    eapply Forall_impl; [|exact Hins]. intros l Hl. simpl. apply String.eqb_eq, Hl.
  - rewrite filter_none; [reflexivity|].
    eapply Forall_impl; [|exact Hins]. intros l Hl. simpl. apply String.eqb_neq. congruence.
Qed.

Lemma call_keeps_gapless c db : gapless db -> gapless (snd (call c db)).
Proof.
  intros Hg.
  destruct (call_effect c db)
    as [->|[(k & -> & _)|(body & t & ins & _ & _ & -> & HF & _)]]; [exact Hg| |].
  - intros user. exact (Hg user).
  - intros user.
    pose proof (pushed_rows_owner _ _ _ _ _ _ HF) as Hown.
    rewrite (user_sequences_pushed db (userId (caller c))).
    2:{ eapply Forall_impl; [|exact Hown]. intros l Hl; apply Hl. }
    destruct (String.eqb_spec (userId (caller c)) user) as [<-|Hne];
      [|rewrite app_nil_r; apply Hg].
    assert (Hseq : map SyncLog.sequence ins
                   = consecutive (user_max_sequence db (userId (caller c)) + 1)
                       (List.length (PushBody.logs body))).
    { rewrite <- (assign_sequences_sequence (caller c) (PushBody.vaultId body)).
      apply (Forall2_map_eq (row_of t)); [|exact HF]. intros v r Hr. apply Hr. }
    rewrite Hseq, (gapless_user_max _ _ (Hg _)), length_app, consecutive_length.
    rewrite (Hg (userId (caller c))) at 1.
    rewrite Z.add_comm. apply consecutive_app.
Qed.

(** X5.  Served one after the other, requests keep every user's rows
    numbered 1, 2, 3, ... in the order they were stored, over all the
    user's vaults together: if that holds of the store before, it holds
    after, and it holds of the empty store. *)
Theorem sequences_stay_gapless getUser uuid requests db :
  gapless db -> gapless (serve getUser uuid requests db).
Proof.
  revert db. induction requests as [|[now req] requests IH]; intros db Hg; simpl;
    [exact Hg|].
  apply IH.
  destruct (sync_is_call getUser uuid now req db) as [->|(c & user & _ & _ & ->)];
    [exact Hg|apply call_keeps_gapless, Hg].
Qed.

Lemma sequences_stay_gapless_witness :
  let push1 := mkRequest (Some "Bearer alice-token")
                 (POST_push (PushBody.mk vault1 two_logs)) in
  let push2 := mkRequest (Some "Bearer alice-token")
                 (POST_push (PushBody.mk vault2 [PushLog.mk "C" "n3" "t3"])) in
  let db := serve getUser_sample uuid_shape [(200, push1); (201, push2)] empty_db in
  gapless db /\ user_sequences db (userId alice) = [1; 2; 3].
Proof.
  intros push1 push2 db. split; [|reflexivity].
  apply (sequences_stay_gapless getUser_sample uuid_shape [(200, push1); (201, push2)]
           empty_db).
  intros user. reflexivity.
Defined.



(** ** Push, then pull *)

Lemma insert_sorted_head {A} (leb : A -> A -> bool) x l :
  Forall (fun y => leb x y = true) l -> insert_sorted leb x l = x :: l.
Proof.
  destruct 1 as [|y l Hy _]; simpl; [reflexivity|]. rewrite Hy. reflexivity.
Qed.



(** The response of a pull is a function of the selected rows. *)
Lemma post_pull_selection user body db1 db2 :
  filter (and_ (whereConditions user body)) (syncLogs db1)
  = filter (and_ (whereConditions user body)) (syncLogs db2) ->
  fst (post_pull user body db1) = fst (post_pull user body db2).
Proof.
  intros H. unfold post_pull, try_catch, bind, syncLogs_findMany, ret. rewrite H.
  destruct (PullBody.limit body + 1 <? 0); reflexivity.
Qed.



(** ** Writes and the reads of others *)

Lemma find_app_none {A} (p : A -> bool) l l' :
  Forall (fun x => p x = false) l' -> find p (l ++ l') = find p l.
Proof.
  intros H. rewrite !find_hd_filter, filter_app, (filter_none _ _ H), app_nil_r.
  reflexivity.
Qed.

(** X8.  A call of any handler leaves the reads of every other
    (userId, vaultId) pair as they were: the vault key found for the pair
    and every pull of the pair answer the same before and after, also for
    another vault of the caller, though the vaults share one numbering. *)
Theorem reads_unaffected_by_other_writes c db user vaultId :
  userId user <> userId (caller c) \/ vaultId <> called_vault c ->
  fst (get_vault_key user vaultId (snd (call c db))) = fst (get_vault_key user vaultId db)
  /\ forall afterSequence limit,
       fst (post_pull user (PullBody.mk vaultId afterSequence limit) (snd (call c db)))
       = fst (post_pull user (PullBody.mk vaultId afterSequence limit) db).
Proof.
  intros Hother.
  destruct (call_effect c db)
    as [->|[(k & -> & Hu & Hv & _)|(body & t & ins & Hc & _ & -> & HF & _)]]; [auto| |].
  - split.
    + unfold get_vault_key, try_catch, bind, vaultKeys_findFirst. simpl.
      rewrite find_app_none; [destruct (find _ _); reflexivity|].
      repeat constructor.
      destruct (vault_key_where user vaultId k) eqn:E; [exfalso|reflexivity].
      apply vault_key_where_spec in E. destruct E, Hother; congruence.
    + intros afterSequence limit. apply post_pull_selection. reflexivity.
  - split.
    { unfold get_vault_key, try_catch, bind, vaultKeys_findFirst. simpl.
      destruct (find _ _); reflexivity. }
    intros afterSequence limit. apply post_pull_selection. simpl.
    rewrite filter_app, (filter_none _ ins), app_nil_r; [reflexivity|].
    apply pushed_rows_owner in HF.
    eapply Forall_impl; [|exact HF]. intros l [Hlu Hlv]. cbv beta.
    rewrite and_whereConditions. unfold qualifying. simpl.
    assert (Hvault : PushBody.vaultId body = called_vault c) by (rewrite Hc; reflexivity).
    destruct (String.eqb_spec (SyncLog.userId l) (userId user)) as [Eu|]; [|reflexivity].
    destruct (String.eqb_spec (SyncLog.vaultId l) vaultId) as [Ev|]; [|reflexivity].
    exfalso. destruct Hother; congruence.
Qed.

Lemma reads_unaffected_by_other_writes_witness :
  fst (post_pull alice (PullBody.mk vault2 None 100)
         (snd (call (Push alice (PushBody.mk vault1 two_logs) 200) sample_db)))
  = fst (post_pull alice (PullBody.mk vault2 None 100) sample_db).
Proof.
  apply (reads_unaffected_by_other_writes
           (Push alice (PushBody.mk vault1 two_logs) 200) sample_db alice vault2).
  right. discriminate.
Defined.

(** ** Paging *)

Section OrderByFilter.

Context {A : Type} (leb : A -> A -> bool).
Hypothesis leb_total : forall a b, leb a b = true \/ leb b a = true.
Hypothesis leb_trans : forall a b c, leb a b = true -> leb b c = true -> leb a c = true.

Lemma filter_insert_sorted (p : A -> bool) x l :
  StronglySorted (fun a b => leb a b = true) l ->
  filter p (insert_sorted leb x l)
  = if p x then insert_sorted leb x (filter p l) else filter p l.
Proof.
  induction 1 as [|y l Hs IH Hy].
  - simpl. destruct (p x); reflexivity.
  - simpl insert_sorted. destruct (leb x y) eqn:E.
    + change (filter p (x :: y :: l))
        with (if p x then x :: filter p (y :: l) else filter p (y :: l)).
      destruct (p x); [|reflexivity].
      symmetry. apply insert_sorted_head.
      apply Forall_forall. intros z Hz. apply filter_In in Hz. destruct Hz as [Hz _].
      destruct Hz as [<-|Hz]; [exact E|].
      rewrite Forall_forall in Hy. eapply leb_trans; [exact E|apply Hy, Hz].
    + simpl filter. rewrite IH.
      destruct (p y), (p x); simpl; rewrite ?E; reflexivity.
Qed.

(** Selecting from ordered rows is ordering the selected rows. *)
Lemma orderBy_filter (p : A -> bool) l :
  filter p (orderBy leb l) = orderBy leb (filter p l).
Proof.
  induction l as [|x l IH]; [reflexivity|].
  change (orderBy leb (x :: l)) with (insert_sorted leb x (orderBy leb l)).
  rewrite filter_insert_sorted by (apply orderBy_sorted; assumption).
  rewrite IH. simpl. destruct (p x); reflexivity.
Qed.

End OrderByFilter.

Lemma StronglySorted_middle {A} (R : A -> A -> Prop) l1 x l2 :
  StronglySorted R (l1 ++ x :: l2) ->
  Forall (fun a => R a x) l1 /\ Forall (R x) l2.
Proof.
  induction l1 as [|a l1 IH]; simpl; intros H; inversion H as [|? ? Hs Ha]; subst.
  - split; [constructor|assumption].
  - destruct (IH Hs) as [H1 H2]. split; [|exact H2].
    constructor; [|exact H1].
    rewrite Forall_forall in Ha. apply Ha, in_or_app. right; left; reflexivity.
Qed.

Lemma sorted_distinct_strict rows :
  StronglySorted (fun a b => asc_sequence a b = true) rows ->
  NoDup (map SyncLog.sequence rows) ->
  StronglySorted (fun a b => SyncLog.sequence a < SyncLog.sequence b) rows.
Proof.
  induction 1 as [|r rows Hs IH Hr]; intros Hnd; [constructor|].
  simpl in Hnd. inversion Hnd as [|? ? Hnotin Hnd']; subst.
  constructor; [apply IH, Hnd'|].
  apply Forall_forall. intros r' Hr'.
  rewrite Forall_forall in Hr. specialize (Hr r' Hr').
  unfold asc_sequence in Hr. apply Z.leb_le in Hr.
  assert (SyncLog.sequence r <> SyncLog.sequence r'); [|lia].
  intros E. apply Hnotin. rewrite E. apply in_map, Hr'.
Qed.

Lemma NoDup_map_filter {A B} (f : A -> B) (p : A -> bool) l :
  NoDup (map f l) -> NoDup (map f (filter p l)).
Proof.
  induction l as [|x l IH]; simpl; intros H; [constructor|].
  inversion H as [|? ? Hx Hl]; subst.
  destruct (p x); simpl; [|apply IH, Hl].
  constructor; [|apply IH, Hl].
  intros Hin. apply Hx. apply in_map_iff in Hin. destruct Hin as (y & E & Hy).
  apply filter_In in Hy. rewrite <- E. apply in_map, Hy.
Qed.

Lemma firstn_add {A} a b (l : list A) :
  firstn (a + b) l = firstn a l ++ firstn b (skipn a l).
Proof.
  revert l. induction a as [|a IH]; intros l; [reflexivity|].
  destruct l as [|x l]; simpl.
  - rewrite firstn_nil. reflexivity.
  - f_equal. apply IH.
Qed.

Lemma filter_filter_and {A} (p q : A -> bool) l :
  filter p (filter q l) = filter (fun x => q x && p x) l.
Proof.
  induction l as [|x l IH]; simpl; [reflexivity|].
  destruct (q x); simpl; [destruct (p x)|]; rewrite IH; reflexivity.
Qed.

(** The ordered selection of a pull, and the selection past one of its
    rows, when the sequence numbers of the selection are distinct. *)
Lemma selection_after_row user vaultId afterSequence limit limit' db front r :
  NoDup (user_sequences db (userId user)) ->
  let selection :=
    orderBy asc_sequence
      (filter (qualifying user (PullBody.mk vaultId afterSequence limit)) (syncLogs db)) in
  firstn (Z.to_nat limit) selection = front ++ [r] ->
  orderBy asc_sequence
    (filter (qualifying user (PullBody.mk vaultId (Some (SyncLog.sequence r)) limit'))
       (syncLogs db))
  = skipn (Z.to_nat limit) selection.
Proof.
  intros Hnd selection Hpage.
  set (q := qualifying user (PullBody.mk vaultId afterSequence limit)) in *.
  set (past := fun l => SyncLog.sequence r <? SyncLog.sequence l).
  assert (Hr : In r (filter q (syncLogs db))).
  { apply (orderBy_In asc_sequence). fold selection.
    apply (In_firstn (Z.to_nat limit)). rewrite Hpage.
    apply in_or_app. right; left; reflexivity. }
  assert (Hq2 : filter (qualifying user
                          (PullBody.mk vaultId (Some (SyncLog.sequence r)) limit'))
                  (syncLogs db)
                = filter past (filter q (syncLogs db))).
  { rewrite filter_filter_and. apply filter_ext. intros l.
    unfold q, qualifying, past. simpl.
    apply filter_In in Hr. destruct Hr as [_ Hr]. unfold q, qualifying in Hr. simpl in Hr.
    destruct afterSequence as [a|]; [|rewrite andb_true_r; reflexivity].
    apply andb_true_iff in Hr. destruct Hr as [_ Hr]. apply Z.ltb_lt in Hr.
    destruct (Z.ltb_spec (SyncLog.sequence r) (SyncLog.sequence l)).
    - destruct (Z.ltb_spec a (SyncLog.sequence l)); [|lia].
      rewrite !andb_true_r. reflexivity.
    - rewrite !andb_false_r. reflexivity. }
  rewrite Hq2,
    <- (orderBy_filter asc_sequence asc_sequence_total asc_sequence_trans).
  fold selection.
  assert (Hstrict : StronglySorted
                      (fun a b => SyncLog.sequence a < SyncLog.sequence b) selection).
  { apply sorted_distinct_strict.
    - apply orderBy_sorted; [apply asc_sequence_total|apply asc_sequence_trans].
    - apply (Permutation_NoDup (l := map SyncLog.sequence (filter q (syncLogs db)))).
      + apply Permutation_map, Permutation_sym, orderBy_perm.
      + replace (filter q (syncLogs db))
          with (filter q (filter (fun l => String.eqb (SyncLog.userId l) (userId user))
                            (syncLogs db))).
        * apply NoDup_map_filter, Hnd.
        * apply filter_filter_implied. intros l Hl. unfold q, qualifying in Hl.
          apply andb_true_iff in Hl. destruct Hl as [Hl _].
          apply andb_true_iff in Hl. apply Hl. }
  rewrite <- (firstn_skipn (Z.to_nat limit) selection) in Hstrict |- * at 1.
  rewrite Hpage in *. rewrite <- app_assoc in Hstrict. simpl in Hstrict.
  apply StronglySorted_middle in Hstrict. destruct Hstrict as [Hbefore Hafter].
  rewrite !filter_app.
  rewrite (filter_none past front), (filter_none past [r]), (filter_all past); simpl;
    try reflexivity.
  - eapply Forall_impl; [|exact Hafter]. intros l Hl. apply Z.ltb_lt, Hl.
  - repeat constructor. apply Z.ltb_irrefl.
  - eapply Forall_impl; [|exact Hbefore]. intros l Hl. simpl in Hl.
    unfold past. apply Z.ltb_ge. lia.
Qed.

(** X9.  Paging loses and repeats nothing when the caller's sequence
    numbers are distinct: a pull that returned a non-empty page, followed
    by a pull after the sequence of that page's last entry, together give
    what one pull with the two limits added gives, entries and hasMore. *)
Theorem pull_pages_compose user vaultId afterSequence limit limit' db front last more :
  NoDup (user_sequences db (userId user)) ->
  0 <= limit -> 0 <= limit' ->
  fst (post_pull user (PullBody.mk vaultId afterSequence limit) db)
  = json (LogsPulledJson (front ++ [last]) more) 200 ->
  exists page' more',
    post_pull user (PullBody.mk vaultId (Some (PulledLog.sequence last)) limit') db
    = (json (LogsPulledJson page' more') 200, db)
    /\ post_pull user (PullBody.mk vaultId afterSequence (limit + limit')) db
       = (json (LogsPulledJson ((front ++ [last]) ++ page') more') 200, db).
Proof.
  intros Hnd Hlimit Hlimit' Hfirst.
  rewrite post_pull_unfold in Hfirst by exact Hlimit. simpl in Hfirst.
  injection Hfirst as Hpage _.
  set (selection :=
         orderBy asc_sequence
           (filter (qualifying user (PullBody.mk vaultId afterSequence limit))
              (syncLogs db))) in *.
  apply map_eq_app in Hpage. destruct Hpage as (rows & tail & Hrows & Hfront & Htail).
  destruct tail as [|r [|r' tail]]; try discriminate Htail.
  simpl in Htail. injection Htail as Hlast.
  pose proof (selection_after_row user vaultId afterSequence limit limit' db rows r
                Hnd Hrows) as Hnext.
  fold selection in Hnext.
  assert (Hseq : PulledLog.sequence last = SyncLog.sequence r) by (rewrite <- Hlast; reflexivity).
  assert (Hlen : List.length
                   (filter (qualifying user
                              (PullBody.mk vaultId (Some (SyncLog.sequence r)) limit'))
                      (syncLogs db))
                 = List.length (skipn (Z.to_nat limit) selection)).
  { rewrite <- Hnext. symmetry. apply orderBy_length. }
  assert (Hsel : List.length
                   (filter (qualifying user (PullBody.mk vaultId afterSequence limit))
                      (syncLogs db))
                 = List.length selection) by (symmetry; apply orderBy_length).
  assert (Hnonempty : (0 < List.length (firstn (Z.to_nat limit) selection))%nat).
  { rewrite Hrows, length_app. simpl. lia. }
  rewrite length_firstn in Hnonempty.
  exists (map pulled (firstn (Z.to_nat limit') (skipn (Z.to_nat limit) selection))),
         (limit' <? Z.of_nat (List.length (skipn (Z.to_nat limit) selection))).
  split.
  - rewrite post_pull_unfold by exact Hlimit'. simpl PullBody.limit.
    rewrite Hseq, Hnext, Hlen. reflexivity.
  - rewrite post_pull_unfold by (simpl; lia). simpl PullBody.limit.
    change (qualifying user (PullBody.mk vaultId afterSequence (limit + limit')))
      with (qualifying user (PullBody.mk vaultId afterSequence limit)).
    fold selection. rewrite Hsel.
    rewrite Z2Nat.inj_add by assumption.
    rewrite firstn_add, map_app, Hrows, map_app, Hfront. simpl map. rewrite Hlast.
    f_equal. f_equal. f_equal.
    rewrite length_skipn.
    destruct (Z.ltb_spec (limit + limit') (Z.of_nat (List.length selection)));
      destruct (Z.ltb_spec limit'
                  (Z.of_nat (List.length selection - Z.to_nat limit))); try reflexivity; lia.
Qed.

Lemma pull_pages_compose_witness :
  exists page' more',
    post_pull alice (PullBody.mk vault1 None 1) paged_db
    = (json (LogsPulledJson [PulledLog.mk 2%N "A" "n1" "t1" 6 102] true) 200, paged_db)
    /\ post_pull alice (PullBody.mk vault1 (Some 6) 1) paged_db
       = (json (LogsPulledJson page' more') 200, paged_db)
    /\ post_pull alice (PullBody.mk vault1 None 2) paged_db
       = (json (LogsPulledJson ([PulledLog.mk 2%N "A" "n1" "t1" 6 102] ++ page') more') 200,
          paged_db).
Proof.
  destruct (pull_pages_compose alice vault1 None 1 1 paged_db []
              (PulledLog.mk 2%N "A" "n1" "t1" 6 102) true)
    as (page' & more' & Hnext & Hboth).
  - unfold user_sequences. simpl. repeat constructor; simpl; intuition discriminate.
  - lia.
  - lia.
  - reflexivity.
  - exists page', more'. split; [reflexivity|]. split; [exact Hnext|exact Hboth].
Defined.

(** With two rows of one number, which pushes served one after the other
    never store, the second page misses a row. *)
Example pull_pages_skip_a_tie :
  let db := mkDb []
              [ SyncLog.mk 0%N (userId alice) vault1 "A" "n1" "t1" 7 100;
                SyncLog.mk 1%N (userId alice) vault1 "B" "n2" "t2" 7 100 ] 2%N in
  post_pull alice (PullBody.mk vault1 None 1) db
  = (json (LogsPulledJson [PulledLog.mk 0%N "A" "n1" "t1" 7 100] true) 200, db)
  /\ post_pull alice (PullBody.mk vault1 (Some 7) 1) db
     = (json (LogsPulledJson [] false) 200, db).
Proof. split; reflexivity. Qed.

(** ** When a push is accepted *)




(** ** The Authorization header *)

Lemma substring_all s : String.substring 0 (String.length s) s = s.
Proof. induction s as [|c s IH]; simpl; [reflexivity|]. rewrite IH. reflexivity. Qed.

Lemma bearer_token_append token : bearer_token (String.append "Bearer " token) = token.
Proof. unfold bearer_token. simpl. rewrite Nat.sub_0_r. apply substring_all. Qed.

Lemma prefix_bearer_append token :
  String.prefix "Bearer " (String.append "Bearer " token) = true.
Proof. simpl. destruct token; reflexivity. Qed.

Lemma bearer_header_shape authHeader :
  String.prefix "Bearer " authHeader = true ->
  authHeader = String.append "Bearer " (bearer_token authHeader).
Proof.
  intros H. unfold bearer_token.
  repeat (destruct authHeader as [|? authHeader]; simpl in H; [discriminate|];
          match type of H with
          | (if ?d then _ else _) = _ => destruct d; [subst|discriminate]
          end).
  simpl. rewrite Nat.sub_0_r, substring_all. reflexivity.
Qed.

(** X11.  The header [Bearer ] followed by a token hands exactly that token
    to the identity provider, and the request goes on as the provider's
    user (id, email, role) when the provider returns a user and no error;
    every header the middleware lets as far as the provider is of that
    form; for any other header the provider is not consulted. *)
Theorem bearer_header_verifies_token getUser :
  (forall token,
     authMiddleware getUser (Some (String.append "Bearer " token))
     = match getUser token with
       | GetUserResolved (Some user) None =>
           inr (mkUserContext (user_id user) (user_email user) (user_role user))
       | _ => inl (json (ErrorJson "Unauthorized - Invalid token") 401)
       end)
  /\ (forall authHeader,
        header_missing_or_malformed (Some authHeader) = false ->
        authHeader = String.append "Bearer " (bearer_token authHeader))
  /\ (forall getUser' authHeader,
        header_missing_or_malformed authHeader = true ->
        authMiddleware getUser authHeader = authMiddleware getUser' authHeader).
Proof.
  repeat split.
  - intros token. unfold authMiddleware.
    rewrite prefix_bearer_append, bearer_token_append. simpl.
    destruct (getUser token) as [[u|] [e|]|]; reflexivity.
  - intros authHeader H. simpl in H. apply negb_false_iff in H.
    apply bearer_header_shape, H.
  - intros getUser' authHeader H. unfold authMiddleware.
    destruct authHeader as [authHeader|]; [|reflexivity].
    simpl in H. rewrite H. reflexivity.
Qed.

Lemma bearer_header_verifies_token_witness :
  authMiddleware getUser_sample (Some "Bearer bob-token") = inr bob
  /\ "Bearer bob-token" = String.append "Bearer " (bearer_token "Bearer bob-token")
  /\ authMiddleware getUser_sample (Some "bearer bob-token")
     = authMiddleware (fun _ => GetUserRejected) (Some "bearer bob-token").
Proof.
  destruct (bearer_header_verifies_token getUser_sample) as (Htoken & Hshape & Hnever).
  split; [exact (Htoken "bob-token")|].
  split; [apply Hshape; reflexivity|apply Hnever; reflexivity].
Defined.

(** ** Validation of a pull *)

Lemma authMiddleware_refusal getUser authHeader res :
  authMiddleware getUser authHeader = inl res -> status res = 401%nat.
Proof.
  unfold authMiddleware. destruct authHeader as [authHeader|].
  - destruct (negb (String.prefix "Bearer " authHeader)).
    + intros H; injection H as <-; reflexivity.
    + destruct (getUser (bearer_token authHeader)) as [[u|] [e|]|]; intros H;
        try discriminate H; injection H as <-; reflexivity.
  - intros H; injection H as <-; reflexivity.
Qed.

Lemma pullLogsSchema_default uuid data body :
  pullLogsSchema uuid data = Some body ->
  PullBody.limit body = match PullInput.limit data with Some limit => limit | None => 100 end
  /\ PullBody.vaultId body = PullInput.vaultId data
  /\ PullBody.afterSequence body = PullInput.afterSequence data
  /\ uuid (PullInput.vaultId data) = true.
Proof.
  unfold pullLogsSchema. destruct (uuid (PullInput.vaultId data)); simpl; [|discriminate].
  match goal with |- context [(1 <=? ?l) && (?l <=? 1000)] =>
    destruct ((1 <=? l) && (l <=? 1000)); [|discriminate]
  end.
  intros Hbody. injection Hbody as <-. simpl. auto.
Qed.

(** X12.  A pull answered with logs never carries more than 1000 of them,
    never more than the limit asked for, and never more than 100 when no
    limit is given; a limit below 1 or above 1000 and a vaultId that is no
    UUID never get logs. *)
Theorem pull_page_size_bounded getUser uuid now authHeader data db logs hasMore :
  fst (sync getUser uuid now (mkRequest authHeader (POST_pull data)) db)
  = json (LogsPulledJson logs hasMore) 200 ->
  let limit := match PullInput.limit data with Some limit => limit | None => 100 end in
  Z.of_nat (List.length logs) <= limit
  /\ 1 <= limit <= 1000
  /\ uuid (PullInput.vaultId data) = true.
Proof.
  intros H limit. unfold sync, zValidator in H. simpl in H.
  destruct (authMiddleware getUser authHeader) as [res|user] eqn:Hauth.
  - apply authMiddleware_refusal in Hauth. simpl in H. rewrite H in Hauth. discriminate.
  - destruct (pullLogsSchema uuid data) as [body|] eqn:Hbody; [|discriminate H].
    pose proof (pullLogsSchema_limit _ _ _ Hbody) as Hrange.
    destruct (pullLogsSchema_default _ _ _ Hbody) as (Hlimit & _ & _ & Huuid).
    fold limit in Hlimit. rewrite Hlimit in Hrange.
    rewrite post_pull_unfold in H by lia. simpl in H. injection H as <- _.
    rewrite length_map, length_firstn, Hlimit. repeat split; try lia. exact Huuid.
Qed.

Lemma pull_page_size_bounded_witness :
  exists logs,
    fst (sync getUser_sample uuid_shape 300
           (mkRequest (Some "Bearer alice-token")
              (POST_pull (PullInput.mk vault1 None (Some 2)))) paged_db)
    = json (LogsPulledJson logs true) 200
    /\ Z.of_nat (List.length logs) <= 2.
Proof.
  eexists. split; [reflexivity|].
  apply (pull_page_size_bounded getUser_sample uuid_shape 300 (Some "Bearer alice-token")
           (PullInput.mk vault1 None (Some 2)) paged_db _ true).
  reflexivity.
Defined.

(** ** The identity the handlers act on *)

Lemma assign_sequences_identity user user' vaultId logs : forall currentSequence,
  userId user = userId user' ->
  assign_sequences user vaultId currentSequence logs
  = assign_sequences user' vaultId currentSequence logs.
Proof.
  induction logs as [|log rest IH]; intros c H; simpl; [reflexivity|].
  rewrite H, (IH _ H). reflexivity.
Qed.

(** X13.  Of the verified identity the handlers use the userId and nothing
    else: two identities with one userId, whatever their email and role,
    get the same response and leave the same store, for every handler and
    every argument. *)
Theorem handlers_use_userId_only user user' :
  userId user = userId user' ->
  (forall body now db, post_vault_key user body now db = post_vault_key user' body now db)
  /\ (forall vaultId db, get_vault_key user vaultId db = get_vault_key user' vaultId db)
  /\ (forall body now db, post_push user body now db = post_push user' body now db)
  /\ (forall body db, post_pull user body db = post_pull user' body db).
Proof.
  intros H. repeat split.
  - intros body now db. unfold post_vault_key, vault_key_where. rewrite H. reflexivity.
  - intros vaultId db. unfold get_vault_key, vault_key_where. rewrite H. reflexivity.
  - intros body now db. unfold post_push, user_where.
    rewrite H. unfold try_catch, bind, syncLogs_findFirst.
    rewrite (assign_sequences_identity user user' _ _ _ H). reflexivity.
  - intros body db. unfold post_pull, whereConditions. rewrite H. reflexivity.
Qed.

Lemma handlers_use_userId_only_witness :
  post_push alice (PushBody.mk vault1 two_logs) 200 sample_db
  = post_push (mkUserContext (userId alice) None (Some "service_role"))
      (PushBody.mk vault1 two_logs) 200 sample_db.
Proof.
  apply (handlers_use_userId_only alice
           (mkUserContext (userId alice) None (Some "service_role"))).
  reflexivity.
Defined.

(** ** A pull with nothing to return *)



(** ** The allowed origins *)

Lemma split_bare separator p :
  contains separator p = false -> split separator p = [p].
Proof.
  induction p as [|c p IH]; simpl; [reflexivity|]. intros H.
  apply orb_false_iff in H. destruct H as [Hc Hp]. rewrite Hc, (IH Hp). reflexivity.
Qed.

Lemma split_append separator p s :
  contains separator p = false ->
  split separator (String.append p (String separator s)) = p :: split separator s.
Proof.
  induction p as [|c p IH]; simpl; intros H.
  - rewrite Ascii.eqb_refl. reflexivity.
  - apply orb_false_iff in H. destruct H as [Hc Hp]. rewrite Hc, (IH Hp). reflexivity.
Qed.

(** Splitting what was joined gives the pieces back. *)
Lemma split_join separator pieces :
  pieces <> [] ->
  Forall (fun p => contains separator p = false) pieces ->
  split separator (join separator pieces) = pieces.
Proof.
  induction pieces as [|p rest IH]; intros Hne H; [congruence|].
  inversion H as [|? ? Hp Hrest]; subst.
  destruct rest as [|q rest]; [apply split_bare, Hp|].
  change (join separator (p :: q :: rest))
    with (String.append p (String separator (join separator (q :: rest)))).
  rewrite split_append by exact Hp. f_equal. apply IH; [discriminate|exact Hrest].
Qed.

Lemma contains_append c s t :
  contains c (String.append s t) = contains c s || contains c t.
Proof.
  induction s as [|c' s IH]; simpl; [reflexivity|]. rewrite IH, orb_assoc. reflexivity.
Qed.

Lemma white_space_no_comma s : all_white_space s = true -> contains "," s = false.
Proof.
  induction s as [|c s IH]; simpl; [reflexivity|]. intros H.
  apply andb_true_iff in H. destruct H as [Hc Hs]. rewrite (IH Hs), orb_false_r.
  destruct (Ascii.eqb_spec c ","%char) as [->|]; [discriminate Hc|reflexivity].
Qed.

Lemma trimStart_white_space before s :
  all_white_space before = true -> trimStart (String.append before s) = trimStart s.
Proof.
  induction before as [|c before IH]; simpl; [reflexivity|]. intros H.
  apply andb_true_iff in H. destruct H as [Hc Hb]. rewrite Hc. apply IH, Hb.
Qed.

Lemma trimStart_all_white_space s : all_white_space s = true -> trimStart s = EmptyString.
Proof.
  induction s as [|c s IH]; simpl; [reflexivity|]. intros H.
  apply andb_true_iff in H. destruct H as [Hc Hs]. rewrite Hc. apply IH, Hs.
Qed.

Lemma trimEnd_all_white_space s : all_white_space s = true -> trimEnd s = EmptyString.
Proof.
  induction s as [|c s IH]; simpl; [reflexivity|]. intros H.
  apply andb_true_iff in H. destruct H as [Hc Hs]. rewrite (IH Hs), Hc. reflexivity.
Qed.

Lemma trimEnd_white_space s after :
  all_white_space after = true -> trimEnd (String.append s after) = trimEnd s.
Proof.
  intros H. induction s as [|c s IH]; simpl.
  - apply trimEnd_all_white_space, H.
  - rewrite IH. reflexivity.
Qed.

Lemma trimEnd_bare s : ends_with_white_space s = false -> trimEnd s = s.
Proof.
  induction s as [|c s IH]; [reflexivity|]. intros H.
  destruct s as [|d s].
  - simpl in *. rewrite H. reflexivity.
  - change (ends_with_white_space (String c (String d s)))
      with (ends_with_white_space (String d s)) in H.
    change (trimEnd (String c (String d s)))
      with (match trimEnd (String d s) with
            | EmptyString => if white_space c then EmptyString else String c EmptyString
            | kept => String c kept
            end).
    rewrite (IH H). reflexivity.
Qed.

(** [trim] removes the white space around a bare origin and nothing else. *)
Lemma trim_padded p : well_padded p = true -> trim (padded p) = snd (fst p).
Proof.
  destruct p as [[before origin] after]. unfold well_padded, padded, bare, trim. simpl.
  intros H. apply andb_true_iff in H. destruct H as [H Hafter].
  apply andb_true_iff in H. destruct H as [Hbefore H].
  apply andb_true_iff in H. destruct H as [H Hends].
  apply andb_true_iff in H. destruct H as [_ Hstarts].
  apply negb_true_iff in Hstarts, Hends.
  rewrite trimStart_white_space by exact Hbefore.
  destruct origin as [|c origin].
  - simpl. rewrite (trimStart_all_white_space _ Hafter). reflexivity.
  - simpl in Hstarts. simpl trimStart. rewrite Hstarts.
    change (String c (String.append origin after))
      with (String.append (String c origin) after).
    rewrite trimEnd_white_space by exact Hafter. apply trimEnd_bare, Hends.
Qed.

Lemma padded_no_comma p : well_padded p = true -> contains "," (padded p) = false.
Proof.
  destruct p as [[before origin] after]. unfold well_padded, padded, bare.
  intros H. apply andb_true_iff in H. destruct H as [H Hafter].
  apply andb_true_iff in H. destruct H as [Hbefore H].
  apply andb_true_iff in H. destruct H as [H _].
  apply andb_true_iff in H. destruct H as [Hcomma _].
  apply negb_true_iff in Hcomma.
  rewrite !contains_append, Hcomma, !white_space_no_comma by assumption. reflexivity.
Qed.

(** X15.  All origins are allowed exactly when CORS_ORIGIN is unset, empty
    or the one character [*].  Otherwise the allowed origins are the
    comma-separated pieces of the value with the white space around each
    removed: a value written as bare origins (no comma inside, no white
    space at the ends), each with any white space before and after it and
    commas between them, allows exactly those origins, in order. *)
Theorem allowedOrigins_of_list :
  (forall CORS_ORIGIN,
     allowedOrigins CORS_ORIGIN = AnyOrigin
     <-> CORS_ORIGIN = None \/ CORS_ORIGIN = Some "" \/ CORS_ORIGIN = Some "*")
  /\ (forall pieces,
        pieces <> [] ->
        Forall (fun p => well_padded p = true) pieces ->
        let value := join "," (map padded pieces) in
        value <> "" -> value <> "*" ->
        allowedOrigins (Some value) = OriginList (map (fun p => snd (fst p)) pieces)).
Proof.
  split.
  - intros env. unfold allowedOrigins, corsOrigin. split.
    + destruct env as [[|c s]|]; auto.
      destruct (String.eqb_spec (String c s) "*") as [->|]; [auto|discriminate].
    + intros [->|[->| ->]]; reflexivity.
  - intros pieces Hne Hpieces value Hempty Hstar.
    unfold allowedOrigins, corsOrigin.
    destruct value as [|c s] eqn:Ev; [congruence|]. rewrite <- Ev.
    destruct (String.eqb_spec value "*") as [E|_]; [congruence|].
    unfold value. rewrite split_join.
    + rewrite map_map. f_equal. apply map_ext_in. intros p Hp.
      rewrite Forall_forall in Hpieces. apply trim_padded, Hpieces, Hp.
    + destruct pieces; [congruence|discriminate].
    + apply Forall_map. eapply Forall_impl; [|exact Hpieces].
      intros p Hp. apply padded_no_comma, Hp.
Qed.

Lemma allowedOrigins_of_list_witness :
  allowedOrigins (Some "https://app.example.com, http://localhost:3000 ,tauri://localhost")
  = OriginList ["https://app.example.com"; "http://localhost:3000"; "tauri://localhost"].
Proof.
  destruct allowedOrigins_of_list as [_ H].
  apply (H [ ("", "https://app.example.com", "");
             (" ", "http://localhost:3000", " ");
             ("", "tauri://localhost", "") ]).
  - discriminate.
  - repeat constructor.
  - discriminate.
  - discriminate.
Defined.

Example allowedOrigins_edges :
  split "," "a,b" = ["a"; "b"]
  /\ split "," "," = [""; ""]
  /\ allowedOrigins (Some "https://a.example,") = OriginList ["https://a.example"; ""]
  /\ allowedOrigins (Some " * ") = OriginList ["*"]
  /\ allowedOrigins (Some "*") = AnyOrigin.
Proof. repeat split; reflexivity. Qed.
